(** * BinaryHeap: the array-backed heap of MaxHeap.cpp

    A shallow embedding of the class [MinHeap<T>] of MaxHeap.cpp at the
    instantiation [T = int] that BinaryHeap.cpp uses, followed by the
    properties of the specification settled against it.

    Conventions of the embedding.
    - [size_t] is a 64-bit unsigned integer: a [Z] whose arithmetic is
      reduced modulo [2^64] ([size_t_wrap]) wherever the source computes.
    - Elements are [int]s, kept as [Z]: the source only compares them,
      with each other and with [-1], and converts one to [unsigned int].
    - The backing array is a [block]: the cells of one [new T[n]], each
      either written ([Some v]) or still indeterminate ([None]), and a
      flag that records whether [delete] has released the block.
    - C++ leaves out-of-bounds accesses, reads of indeterminate cells and
      accesses through a released block undefined.  The embedding is
      total: such an access ends the run with a [fault] naming it.
    - Methods run in the monad [M]: they thread the object's fields and
      stop at the first fault.
    - The two recursive methods take a budget of calls; on well-formed
      objects the budgets that [Insert] and [Delete] pass are shown to
      be enough ([budgets_suffice]). *)

From Stdlib Require Import ZArith Lia.
From stdpp Require Import base list list_numbers.

Local Open Scope Z_scope.

(** ** Machine integers *)

Definition size_t_modulus : Z := 2 ^ 64.
Definition size_t_wrap (z : Z) : Z := z mod size_t_modulus.

(** [unsigned int] is 32 bits wide; an [int] converted to it is reduced
    modulo [2^32]. *)
Definition to_unsigned_int (z : Z) : Z := z mod 2 ^ 32.

(** No array object is larger than [PTRDIFF_MAX = 2^63 - 1] bytes, hence
    no array of 4-byte [int]s has more than [2^61] cells. *)
Definition max_cells : Z := 2 ^ 61.

(** ** Faults and results *)

Inductive fault : Type :=
| OutOfBounds      (* an index outside the allocated cells *)
| Indeterminate    (* a read of a cell that was never written *)
| UseAfterFree     (* an access through a released block *)
| OutOfFuel.       (* recursion budget of the embedding exhausted *)

Inductive result (A : Type) : Type :=
| Ok (a : A)
| Fault (f : fault).
Arguments Ok {A} a.
Arguments Fault {A} f.

(** ** Memory blocks *)

Record block : Type := { live : bool; cells : list (option Z) }.

(** [new T[n]]: [n] cells, none of them written. *)
Definition new_array (n : Z) : block :=
  {| live := true; cells := replicate (Z.to_nat n) None |}.

(** [delete p]: the cells are released; every later access is a fault.
    The source applies the scalar [delete] to storage that came from
    [new T[n]], which C++ leaves undefined in itself; the embedding takes
    it for the release it is meant to be.  Every property stated of a run
    that passes through [CacheResize] concludes a fault, so none rests on
    that choice. *)
Definition delete_block (b : block) : block :=
  {| live := false; cells := cells b |}.

Definition in_bounds (b : block) (i : Z) : bool :=
  (0 <=? i) && (i <? Z.of_nat (length (cells b))).

(** [b[i]] as an rvalue. *)
Definition load (b : block) (i : Z) : result Z :=
  if negb (live b) then Fault UseAfterFree
  else if negb (in_bounds b i) then Fault OutOfBounds
  else match cells b !! Z.to_nat i with
       | Some (Some v) => Ok v
       | _ => Fault Indeterminate
       end.

(** [b[i] = v]. *)
Definition store (b : block) (i : Z) (v : Z) : result block :=
  if negb (live b) then Fault UseAfterFree
  else if negb (in_bounds b i) then Fault OutOfBounds
  else Ok {| live := live b; cells := <[Z.to_nat i := Some v]> (cells b) |}.

(** ** The object and its method monad *)

Record MinHeap : Type := {
  _cache : block;      (* T* _cache *)
  _size : Z;           (* size_t _size *)
  _capacity : Z        (* size_t _capacity *)
}.

Definition M (A : Type) : Type := MinHeap → result (A * MinHeap).

Definition ret {A} (a : A) : M A := fun h => Ok (a, h).

Definition bind {A B} (m : M A) (k : A → M B) : M B :=
  fun h => match m h with
           | Ok (a, h') => k a h'
           | Fault f => Fault f
           end.

Declare Scope heap_scope.
Delimit Scope heap_scope with heap.
Notation "x <- m ;; k" := (bind m (fun x => k))
  (at level 100, m at next level, right associativity) : heap_scope.
Notation "m ;; k" := (bind m (fun _ => k))
  (at level 100, right associativity) : heap_scope.
Local Open Scope heap_scope.

Definition lift {A} (r : result A) : M A :=
  fun h => match r with Ok a => Ok (a, h) | Fault f => Fault f end.

Definition get_size : M Z := fun h => Ok (_size h, h).
Definition get_capacity : M Z := fun h => Ok (_capacity h, h).
Definition get_cache : M block := fun h => Ok (_cache h, h).

Definition set_size (n : Z) : M unit :=
  fun h => Ok (tt, {| _cache := _cache h; _size := n; _capacity := _capacity h |}).
Definition set_capacity (n : Z) : M unit :=
  fun h => Ok (tt, {| _cache := _cache h; _size := _size h; _capacity := n |}).
Definition set_cache (b : block) : M unit :=
  fun h => Ok (tt, {| _cache := b; _size := _size h; _capacity := _capacity h |}).

(** [_cache[i]] read and written through the object. *)
Definition read (i : Z) : M Z :=
  c <- get_cache ;; lift (load c i).

Definition write (i : Z) (v : Z) : M unit :=
  c <- get_cache ;; c' <- lift (store c i v) ;; set_cache c'.

(** [std::swap(_cache[i], _cache[j])]: [tmp = a; a = b; b = tmp]. *)
Definition swap (i j : Z) : M unit :=
  tmp <- read i ;;
  b <- read j ;;
  write i b ;;
  write j tmp.

(** A [for] loop whose bounds are fixed on entry, as a fold over its
    index values. *)
Fixpoint for_each {A} (body : A → Z → M A) (acc : A) (range : list Z) : M A :=
  match range with
  | [] => ret acc
  | i :: range' => acc' <- body acc i ;; for_each body acc' range'
  end.

(** ** Index arithmetic (MaxHeap.cpp, lines 212-233) *)

Definition GetParentNode (index : Z) : Z :=
  size_t_wrap (index - 1) / 2.

Definition GetLeftChildNode (index : Z) : Z :=
  size_t_wrap (2 * index + 1).

Definition GetRightChildNode (index : Z) : Z :=
  size_t_wrap (2 * index + 2).

(** ** PercolateUp (lines 43-58)

    The recursion is on [parent], which is at most half of [index]; the
    budget covers every 64-bit index. *)

Definition PercolateUp_budget : nat := 66.

Fixpoint PercolateUp (fuel : nat) (index : Z) : M unit :=
  match fuel with
  | O => lift (Fault OutOfFuel)
  | S fuel' =>
      let parent := GetParentNode index in
      needs_swap <-
        (if 0 <? parent
         then p <- read parent ;; c <- read index ;; ret (p <? c)
         else ret false) ;;
      if (needs_swap : bool)
      then swap parent index ;; PercolateUp fuel' parent
      else ret tt
  end.

(** ** PercolateDown (lines 62-109) *)

(** [std::max(a, b)] returns [b] when [a < b] and [a] otherwise. *)
Definition std_max (a b : Z) : Z := if a <? b then b else a.

Fixpoint PercolateDown (fuel : nat) (index : Z) : M unit :=
  match fuel with
  | O => lift (Fault OutOfFuel)
  | S fuel' =>
      size <- get_size ;;
      if (GetLeftChildNode index <? size) && (GetRightChildNode index <? size)
      then
        let parent := GetParentNode (size_t_wrap (index + 2)) in
        let left_child := GetLeftChildNode parent in
        let right_child := GetRightChildNode parent in
        l <- read left_child ;;
        two_children <-
          (if l >? -1 then r <- read right_child ;; ret (r >? -1)
           else ret false) ;;
        if (two_children : bool)
        then
          r <- read right_child ;;
          let max_value := to_unsigned_int (std_max l r) in
          let max_index :=
            if max_value =? to_unsigned_int l then left_child else right_child in
          swap parent max_index ;;
          PercolateDown fuel' max_index
        else
          let child_select :=
            if negb (l =? -1) then left_child else right_child in
          swap parent child_select ;;
          PercolateDown fuel' child_select
      else ret tt
  end.

(** ** CacheResize (lines 113-131)

    [temp] keeps pointing at the block that [delete _cache] releases. *)
Definition CacheResize (new_capacity : Z) : M unit :=
  old <- get_cache ;;
  let temp := delete_block old in
  set_cache (new_array new_capacity) ;;
  capacity <- get_capacity ;;
  for_each (fun _ i => v <- lift (load temp i) ;; write i v)
           tt (seqZ 1 (capacity - 1)) ;;
  set_capacity new_capacity.

(** ** Print (lines 134-143)

    The stream is the list of lines written so far, each an index and
    the value stored there. *)
Definition ostream : Type := list (Z * Z).

Definition Print (out : ostream) : M ostream :=
  size <- get_size ;;
  for_each (fun out i => v <- read i ;; ret (out ++ [(i, v)]))
           out (seqZ 0 size).

(** ** Constructor (lines 150-157)

    The body has no failing path of its own, and the [new]-expression is
    taken to succeed.  It can succeed only for an array that can exist,
    [capacity + 1 <= max_cells]; what is proved of the storage of a
    constructed heap is stated for such capacities. *)
Definition MinHeap_ctor (capacity : Z) : result MinHeap :=
  Ok {| _cache := new_array (size_t_wrap (capacity + 1));
        _size := 0;
        _capacity := capacity |}.

(** ** Insert (lines 160-185) *)
Definition Insert (x : Z) : M unit :=
  size <- get_size ;;
  set_size (size_t_wrap (size + 1)) ;;
  size <- get_size ;;
  capacity <- get_capacity ;;
  (if size =? capacity
   then CacheResize (size_t_wrap (capacity * 2))
   else ret tt) ;;
  write (size_t_wrap (size - 1)) x ;;
  PercolateUp PercolateUp_budget (size_t_wrap (size - 1)).

(** ** Delete (lines 190-209)

    [PercolateDown] moves to a strictly larger index on every call, so a
    budget of [_size + 1] calls is never exhausted. *)
Definition Delete : M unit :=
  size <- get_size ;;
  let root_node := 0 in
  let last_node := size_t_wrap (size - 1) in
  swap root_node last_node ;;
  set_size (size_t_wrap (size - 1)) ;;
  size <- get_size ;;
  PercolateDown (S (Z.to_nat size)) 0.

(** ** Well-formed objects and example states *)

(** The first [n] cells of a block have been written. *)
Definition initialised (b : block) (n : Z) : Prop :=
  Forall is_Some (take (Z.to_nat n) (cells b)).

(** What every method may rely on: the storage has not been released and
    is an array that can exist, [_size] counts cells of it, and the cells
    below [_size] hold values. *)
Record wf (h : MinHeap) : Prop := {
  wf_live : live (_cache h) = true;
  wf_cells : Z.of_nat (length (cells (_cache h))) ≤ max_cells;
  wf_size : 0 ≤ _size h ≤ Z.of_nat (length (cells (_cache h)));
  wf_init : initialised (_cache h) (_size h)
}.

(** The object whose storage has [len] cells, the first of them holding
    [vals] in array order, with [_size = length vals]. *)
Definition heap_of (vals : list Z) (len : nat) (capacity : Z) : MinHeap :=
  {| _cache := {| live := true;
                  cells := (Some <$> vals) ++ replicate (len - length vals) None |};
     _size := Z.of_nat (length vals);
     _capacity := capacity |}.

(** The values of the logical heap, in array order: cells [0 .. _size-1]. *)
Definition contents (h : MinHeap) : list (option Z) :=
  take (Z.to_nat (_size h)) (cells (_cache h)).

(** The value stored at index [i], if the cell exists and was written. *)
Definition value_at (h : MinHeap) (i : Z) : option Z :=
  if 0 <=? i then mjoin (cells (_cache h) !! Z.to_nat i) else None.

(** The heap-order invariant of the header comment: every node other
    than the root is no larger than its parent, [parent(i) = (i-1)/2]. *)
Definition ordered_at (h : MinHeap) (i : Z) : bool :=
  match value_at h ((i - 1) / 2), value_at h i with
  | Some p, Some c => c <=? p
  | _, _ => false
  end.

Definition heap_order_b (h : MinHeap) : bool :=
  forallb (ordered_at h) (seqZ 1 (_size h - 1)).

Definition heap_order (h : MinHeap) : Prop :=
  ∀ i, 0 < i < _size h → ordered_at h i = true.

(** ** Intermediate objects of the methods *)

(** The object [h] with the cells of its (live) storage replaced. *)
Definition with_cells (h : MinHeap) (cs : list (option Z)) : MinHeap :=
  {| _cache := {| live := true; cells := cs |};
     _size := _size h;
     _capacity := _capacity h |}.

(** The object after [_size++]. *)
Definition grown (h : MinHeap) : MinHeap :=
  {| _cache := _cache h;
     _size := size_t_wrap (_size h + 1);
     _capacity := _capacity h |}.

(** The object after [_size++] and [_cache[_size - 1] = x], when nothing
    wraps and no resize happens. *)
Definition appended (x : Z) (h : MinHeap) : MinHeap :=
  {| _cache := {| live := true;
                  cells := <[Z.to_nat (_size h) := Some x]> (cells (_cache h)) |};
     _size := _size h + 1;
     _capacity := _capacity h |}.

(** The object after the root and the last element have been exchanged
    and [_size] decremented. *)
Definition shrunk (h : MinHeap) : MinHeap :=
  {| _cache := _cache h; _size := _size h - 1; _capacity := _capacity h |}.

(** ** Rearrangements of the logical heap *)

(** [rearranged h h']: the fields are those of [h], the cells below
    [_size h] are a permutation of those of [h], and every cell from
    [_size h] on is untouched. *)
Record rearranged (h h' : MinHeap) : Prop := {
  re_size : _size h' = _size h;
  re_capacity : _capacity h' = _capacity h;
  re_live : live (_cache h') = live (_cache h);
  re_prefix : contents h' ≡ₚ contents h;
  re_suffix : drop (Z.to_nat (_size h)) (cells (_cache h'))
              = drop (Z.to_nat (_size h)) (cells (_cache h))
}.

(** ** Sequences of public operations *)

Inductive operation : Type :=
| OpInsert (x : Z)
| OpDelete.

Definition perform (o : operation) : M unit :=
  match o with
  | OpInsert x => Insert x
  | OpDelete => Delete
  end.

Fixpoint run (ops : list operation) : M unit :=
  match ops with
  | [] => ret tt
  | o :: ops' => perform o ;; run ops'
  end.

(** Insertions minus deletions. *)
Fixpoint net_growth (ops : list operation) : Z :=
  match ops with
  | [] => 0
  | OpInsert _ :: ops' => 1 + net_growth ops'
  | OpDelete :: ops' => net_growth ops' - 1
  end.

(** What a caller observes of [n] extractions.  [Delete] hands nothing
    back, so the element an extraction removes is the one the caller
    finds at the root just before the call. *)
Fixpoint extract_all (n : nat) : M (list Z) :=
  match n with
  | O => ret []
  | S n' =>
      top <- read 0 ;; Delete ;; rest <- extract_all n' ;; ret (top :: rest)
  end.

(** ** Order below the root

    Heap order on every edge whose upper end is not the root: the nodes
    from index 3 on are no larger than their parents, so the subtrees
    hanging off indices 1 and 2 are heaps of their own. *)
Definition ordered_below_root (h : MinHeap) : Prop :=
  ∀ i, 3 ≤ i < _size h → ordered_at h i = true.

(** The state of a sift-up that has carried the new element to index
    [k]: every edge below the root is in order except possibly the one
    above [k], and the children of [k] are no larger than the parent of
    [k]. *)
Definition sift_up_inv (h : MinHeap) (k : Z) : Prop :=
  (∀ i, 3 ≤ i < _size h → i ≠ k → ordered_at h i = true) ∧
  (∀ c g x, 3 ≤ k → 0 ≤ c < _size h → (c - 1) / 2 = k →
            value_at h ((k - 1) / 2) = Some g → value_at h c = Some x →
            x ≤ g).

(** * Properties *)

(** ** Arithmetic of [size_t] *)

Lemma size_t_wrap_small (z : Z) :
  0 ≤ z < size_t_modulus → size_t_wrap z = z.
Proof. intros Hz. unfold size_t_wrap. by apply Z.mod_small. Qed.

Lemma size_t_wrap_range (z : Z) : 0 ≤ size_t_wrap z < size_t_modulus.
Proof. unfold size_t_wrap, size_t_modulus. apply Z.mod_pos_bound. lia. Qed.

Lemma GetParentNode_pos (i : Z) :
  0 < i < size_t_modulus → GetParentNode i = (i - 1) / 2.
Proof.
  intros Hi. unfold GetParentNode. rewrite size_t_wrap_small; [done | lia].
Qed.

Lemma GetParentNode_root : GetParentNode 0 = 2 ^ 63 - 1.
Proof. reflexivity. Qed.

Lemma GetLeftChildNode_fits (i : Z) :
  0 ≤ i → 2 * i + 2 < size_t_modulus → GetLeftChildNode i = 2 * i + 1.
Proof.
  intros Hi Hfit. unfold GetLeftChildNode. apply size_t_wrap_small. lia.
Qed.

Lemma GetRightChildNode_fits (i : Z) :
  0 ≤ i → 2 * i + 2 < size_t_modulus → GetRightChildNode i = 2 * i + 2.
Proof.
  intros Hi Hfit. unfold GetRightChildNode. apply size_t_wrap_small. lia.
Qed.

(** Past the largest index whose children are representable the child
    helpers wrap around. *)
Lemma GetLeftChildNode_wraps : GetLeftChildNode (2 ^ 63) = 1.
Proof. reflexivity. Qed.

Lemma max_cells_lt_modulus : max_cells < size_t_modulus.
Proof. reflexivity. Qed.

(** ** Equations of the monad *)

Lemma bind_ok {A B} (m : M A) (k : A → M B) h a h' :
  m h = Ok (a, h') → bind m k h = k a h'.
Proof. intros Hm. unfold bind. by rewrite Hm. Qed.

Lemma bind_fault {A B} (m : M A) (k : A → M B) h f :
  m h = Fault f → bind m k h = Fault f.
Proof. intros Hm. unfold bind. by rewrite Hm. Qed.

Lemma bind_inv {A B} (m : M A) (k : A → M B) h b h'' :
  bind m k h = Ok (b, h'') → ∃ a h', m h = Ok (a, h') ∧ k a h' = Ok (b, h'').
Proof.
  unfold bind. destruct (m h) as [[a h']|f]; [eauto | done].
Qed.

(** ** Blocks *)

Lemma in_bounds_true (b : block) (i : Z) :
  in_bounds b i = true ↔ 0 ≤ i < Z.of_nat (length (cells b)).
Proof. unfold in_bounds. rewrite andb_true_iff, Z.leb_le, Z.ltb_lt. done. Qed.

Lemma in_bounds_false (b : block) (i : Z) :
  in_bounds b i = false ↔ ¬ (0 ≤ i < Z.of_nat (length (cells b))).
Proof. rewrite <-in_bounds_true. by destruct (in_bounds b i). Qed.

Lemma load_ok (b : block) (i v : Z) :
  live b = true → 0 ≤ i → cells b !! Z.to_nat i = Some (Some v) →
  load b i = Ok v.
Proof.
  intros Hlive Hi Hcell. unfold load. rewrite Hlive. simpl.
  assert (in_bounds b i = true) as ->.
  { apply in_bounds_true. apply lookup_lt_Some in Hcell. lia. }
  simpl. by rewrite Hcell.
Qed.

Lemma load_out_of_bounds (b : block) (i : Z) :
  live b = true → ¬ (0 ≤ i < Z.of_nat (length (cells b))) →
  load b i = Fault OutOfBounds.
Proof.
  intros Hlive Hi. unfold load. rewrite Hlive. simpl.
  apply in_bounds_false in Hi. by rewrite Hi.
Qed.

Lemma store_ok (b : block) (i v : Z) :
  live b = true → 0 ≤ i < Z.of_nat (length (cells b)) →
  store b i v =
    Ok {| live := true; cells := <[Z.to_nat i := Some v]> (cells b) |}.
Proof.
  intros Hlive Hi. unfold store. rewrite Hlive. simpl.
  apply in_bounds_true in Hi. by rewrite Hi.
Qed.

Lemma store_out_of_bounds (b : block) (i v : Z) :
  live b = true → ¬ (0 ≤ i < Z.of_nat (length (cells b))) →
  store b i v = Fault OutOfBounds.
Proof.
  intros Hlive Hi. unfold store. rewrite Hlive. simpl.
  apply in_bounds_false in Hi. by rewrite Hi.
Qed.

(** ** Cell accesses through the object *)

Lemma read_ok (h : MinHeap) (i v : Z) :
  live (_cache h) = true → 0 ≤ i →
  cells (_cache h) !! Z.to_nat i = Some (Some v) →
  read i h = Ok (v, h).
Proof.
  intros Hlive Hi Hcell. unfold read, bind, get_cache, lift.
  by rewrite (load_ok _ _ v).
Qed.

Lemma read_out_of_bounds (h : MinHeap) (i : Z) :
  live (_cache h) = true →
  ¬ (0 ≤ i < Z.of_nat (length (cells (_cache h)))) →
  read i h = Fault OutOfBounds.
Proof.
  intros Hlive Hi. unfold read, bind, get_cache, lift.
  by rewrite load_out_of_bounds.
Qed.

Lemma read_indeterminate (h : MinHeap) (i : Z) :
  live (_cache h) = true → 0 ≤ i →
  cells (_cache h) !! Z.to_nat i = Some None →
  read i h = Fault Indeterminate.
Proof.
  intros Hlive Hi Hcell. unfold read, bind, get_cache, lift, load.
  rewrite Hlive. simpl.
  assert (in_bounds (_cache h) i = true) as ->.
  { apply in_bounds_true. apply lookup_lt_Some in Hcell. lia. }
  simpl. by rewrite Hcell.
Qed.

Lemma write_ok (h : MinHeap) (i v : Z) :
  live (_cache h) = true →
  0 ≤ i < Z.of_nat (length (cells (_cache h))) →
  write i v h = Ok (tt, with_cells h (<[Z.to_nat i := Some v]> (cells (_cache h)))).
Proof.
  intros Hlive Hi. unfold write, bind, get_cache, lift, set_cache.
  by rewrite store_ok.
Qed.

Lemma write_out_of_bounds (h : MinHeap) (i v : Z) :
  live (_cache h) = true →
  ¬ (0 ≤ i < Z.of_nat (length (cells (_cache h)))) →
  write i v h = Fault OutOfBounds.
Proof.
  intros Hlive Hi. unfold write, bind, get_cache, lift.
  by rewrite store_out_of_bounds.
Qed.

Lemma swap_ok (h : MinHeap) (i j x y : Z) :
  live (_cache h) = true → 0 ≤ i → 0 ≤ j →
  cells (_cache h) !! Z.to_nat i = Some (Some x) →
  cells (_cache h) !! Z.to_nat j = Some (Some y) →
  swap i j h =
    Ok (tt, with_cells h (<[Z.to_nat j := Some x]>
                           (<[Z.to_nat i := Some y]> (cells (_cache h))))).
Proof.
  intros Hlive Hi Hj Hx Hy. unfold swap.
  rewrite (bind_ok _ _ _ _ _ (read_ok h i x Hlive Hi Hx)).
  rewrite (bind_ok _ _ _ _ _ (read_ok h j y Hlive Hj Hy)).
  apply lookup_lt_Some in Hx as Hi'. apply lookup_lt_Some in Hy as Hj'.
  rewrite (bind_ok _ _ _ _ _ (write_ok h i y Hlive ltac:(lia))).
  rewrite write_ok; simpl; [done | done |].
  rewrite length_insert. lia.
Qed.

(** The faults of cell accesses are faults of the program, never the
    exhausted budget of the embedding. *)
Lemma load_fault_not_fuel (b : block) (i : Z) (f : fault) :
  load b i = Fault f → f ≠ OutOfFuel.
Proof.
  unfold load. destruct (live b); simpl; [|by intros [= <-]].
  destruct (in_bounds b i); simpl; [|by intros [= <-]].
  destruct (cells b !! Z.to_nat i) as [[w|]|]; by intros [= <-].
Qed.

Lemma store_fault_not_fuel (b : block) (i v : Z) (f : fault) :
  store b i v = Fault f → f ≠ OutOfFuel.
Proof.
  unfold store. destruct (live b); simpl; [|by intros [= <-]].
  destruct (in_bounds b i); simpl; by intros [= <-].
Qed.

Lemma read_fault_not_fuel (h : MinHeap) (i : Z) (f : fault) :
  read i h = Fault f → f ≠ OutOfFuel.
Proof.
  unfold read, bind, get_cache, lift.
  destruct (load (_cache h) i) eqn:Hload; [done|].
  intros [= <-]. by eapply load_fault_not_fuel.
Qed.

Lemma write_fault_not_fuel (h : MinHeap) (i v : Z) (f : fault) :
  write i v h = Fault f → f ≠ OutOfFuel.
Proof.
  unfold write, bind, get_cache, lift, set_cache.
  destruct (store (_cache h) i v) eqn:Hstore; [done|].
  intros [= <-]. by eapply store_fault_not_fuel.
Qed.

Lemma swap_fault_not_fuel (h : MinHeap) (i j : Z) (f : fault) :
  swap i j h = Fault f → f ≠ OutOfFuel.
Proof.
  unfold swap. unfold bind at 1.
  destruct (read i h) as [[x h1]|f1] eqn:H1;
    [|intros [= <-]; by eapply read_fault_not_fuel].
  unfold bind at 1.
  destruct (read j h1) as [[y h2]|f2] eqn:H2;
    [|intros [= <-]; by eapply read_fault_not_fuel].
  unfold bind at 1.
  destruct (write i y h2) as [[u h3]|f3] eqn:H3;
    [|intros [= <-]; by eapply write_fault_not_fuel].
  by apply write_fault_not_fuel.
Qed.

(** ** Rearrangements *)

Lemma rearranged_refl (h : MinHeap) : rearranged h h.
Proof. by split. Qed.

Lemma rearranged_trans (h1 h2 h3 : MinHeap) :
  rearranged h1 h2 → rearranged h2 h3 → rearranged h1 h3.
Proof.
  intros [S1 C1 L1 P1 D1] [S2 C2 L2 P2 D2]. split; try congruence.
  by rewrite P2.
Qed.

Lemma rearranged_cells (h h' : MinHeap) :
  rearranged h h' →
  cells (_cache h') = contents h' ++ drop (Z.to_nat (_size h)) (cells (_cache h)).
Proof.
  intros [S _ _ _ D]. unfold contents. rewrite S, <-D. by rewrite take_drop.
Qed.

Lemma rearranged_length (h h' : MinHeap) :
  rearranged h h' →
  length (cells (_cache h')) = length (cells (_cache h)).
Proof.
  intros Hre. rewrite (rearranged_cells _ _ Hre).
  rewrite <-(take_drop (Z.to_nat (_size h)) (cells (_cache h))) at 2.
  rewrite !length_app. f_equal.
  apply Permutation_length. apply Hre.
Qed.

Lemma rearranged_wf (h h' : MinHeap) :
  wf h → rearranged h h' → wf h'.
Proof.
  intros [Hlive Hcells Hsize Hinit] Hre.
  pose proof (rearranged_length _ _ Hre) as Hlen.
  destruct Hre as [S C L P D]. split.
  - congruence.
  - lia.
  - lia.
  - unfold initialised in *. fold (contents h'). fold (contents h) in Hinit.
    by rewrite P.
Qed.

Lemma rearranged_suffix_lookup (h h' : MinHeap) (k : nat) :
  rearranged h h' → _size h ≤ Z.of_nat k →
  cells (_cache h') !! k = cells (_cache h) !! k.
Proof.
  intros Hre Hk.
  replace k with (Z.to_nat (_size h) + (k - Z.to_nat (_size h)))%nat by lia.
  rewrite <-!lookup_drop. by rewrite (re_suffix _ _ Hre).
Qed.

Lemma wf_lookup (h : MinHeap) (i : Z) :
  wf h → 0 ≤ i < _size h →
  ∃ v, cells (_cache h) !! Z.to_nat i = Some (Some v).
Proof.
  intros [_ _ Hsize Hinit] Hi. unfold initialised in Hinit.
  rewrite Forall_lookup in Hinit.
  destruct (lookup_lt_is_Some_2 (cells (_cache h)) (Z.to_nat i)) as [c Hc];
    [lia|].
  destruct (Hinit (Z.to_nat i) c) as [v ->]; [|eauto].
  rewrite lookup_take_lt; [done | lia].
Qed.

(** Swapping two cells of the logical heap rearranges it and touches no
    other cell. *)
Lemma swap_rearranged (h : MinHeap) (i j : Z) :
  wf h → 0 ≤ i < _size h → 0 ≤ j < _size h →
  ∃ h', swap i j h = Ok (tt, h') ∧ rearranged h h' ∧
        cells (_cache h') !! Z.to_nat j = cells (_cache h) !! Z.to_nat i ∧
        ∀ k : nat, k ≠ Z.to_nat i → k ≠ Z.to_nat j →
                   cells (_cache h') !! k = cells (_cache h) !! k.
Proof.
  intros Hwf Hi Hj. pose proof (wf_size h Hwf) as Hsize.
  destruct (wf_lookup h i Hwf Hi) as [x Hx].
  destruct (wf_lookup h j Hwf Hj) as [y Hy].
  eexists. split; [apply (swap_ok h i j x y); try done; try lia; apply Hwf|].
  split; [|split].
  - split; simpl; try done.
    + symmetry. apply Hwf.
    + unfold contents. simpl.
      rewrite !take_insert_lt by lia.
      apply Permutation_insert_swap; rewrite lookup_take_lt by lia; done.
    + rewrite !drop_insert_lt by lia. done.
  - simpl. rewrite Hx. apply list_lookup_insert_eq.
    rewrite length_insert. lia.
  - intros k Hki Hkj. simpl. by rewrite !list_lookup_insert_ne.
Qed.

(** ** PercolateDown *)

Lemma PercolateDown_unfold (fuel : nat) (index : Z) :
  PercolateDown (S fuel) index =
  (size <- get_size ;;
   if (GetLeftChildNode index <? size) && (GetRightChildNode index <? size)
   then
     let parent := GetParentNode (size_t_wrap (index + 2)) in
     let left_child := GetLeftChildNode parent in
     let right_child := GetRightChildNode parent in
     l <- read left_child ;;
     two_children <-
       (if l >? -1 then r <- read right_child ;; ret (r >? -1)
        else ret false) ;;
     if (two_children : bool)
     then
       r <- read right_child ;;
       let max_value := to_unsigned_int (std_max l r) in
       let max_index :=
         if max_value =? to_unsigned_int l then left_child else right_child in
       swap parent max_index ;;
       PercolateDown fuel max_index
     else
       let child_select :=
         if negb (l =? -1) then left_child else right_child in
       swap parent child_select ;;
       PercolateDown fuel child_select
   else ret tt).
Proof. reflexivity. Qed.

(** The node that [PercolateDown index] treats as the parent, when
    nothing wraps: [((index + 2) - 1) / 2]. *)
Lemma PercolateDown_parent (index : Z) :
  0 ≤ index ≤ max_cells →
  GetParentNode (size_t_wrap (index + 2)) = (index + 1) / 2.
Proof.
  intros Hi. pose proof max_cells_lt_modulus as Hm.
  unfold max_cells, size_t_modulus in *.
  rewrite size_t_wrap_small by (unfold size_t_modulus; lia).
  rewrite GetParentNode_pos by (unfold size_t_modulus; lia).
  f_equal. lia.
Qed.

(** One call of [PercolateDown] that swaps [parent] with the child [c]
    and continues from [c]. *)
Lemma PercolateDown_step (fuel : nat) (parent c : Z) (h : MinHeap) :
  (∀ h1, wf h1 → _size h1 = _size h →
         ∃ h', PercolateDown fuel c h1 = Ok (tt, h') ∧ rearranged h1 h') →
  wf h → 0 ≤ parent < _size h → 0 ≤ c < _size h →
  ∃ h', (swap parent c ;; PercolateDown fuel c) h = Ok (tt, h') ∧
        rearranged h h'.
Proof.
  intros IH Hwf Hp Hc.
  destruct (swap_rearranged h parent c Hwf Hp Hc) as (h1 & Hswap & Hre1 & _).
  destruct (IH h1) as (h' & Hrec & Hre2).
  { by eapply rearranged_wf. }
  { apply Hre1. }
  exists h'. split.
  - by rewrite (bind_ok _ _ _ _ _ Hswap).
  - by eapply rearranged_trans.
Qed.

(** On a well-formed object [PercolateDown] reads and writes only cells
    below [_size], returns within its budget, and rearranges the logical
    heap. *)
Lemma PercolateDown_rearranges (fuel : nat) :
  ∀ (index : Z) (h : MinHeap),
    wf h → 0 ≤ index ≤ _size h → _size h < Z.of_nat fuel + index →
    ∃ h', PercolateDown fuel index h = Ok (tt, h') ∧ rearranged h h'.
Proof.
  induction fuel as [|fuel IH]; intros index h Hwf Hindex Hfuel; [lia|].
  pose proof (wf_cells h Hwf) as Hcells. pose proof (wf_size h Hwf) as Hsize.
  pose proof max_cells_lt_modulus as Hm.
  assert (Hmc : max_cells = 2 ^ 61) by reflexivity.
  assert (Hmod : size_t_modulus = 2 ^ 64) by reflexivity.
  rewrite PercolateDown_unfold. unfold bind at 1, get_size at 1.
  rewrite GetLeftChildNode_fits, GetRightChildNode_fits by lia.
  destruct ((2 * index + 1 <? _size h) && (2 * index + 2 <? _size h))
    eqn:Hguard.
  2:{ exists h. split; [done | apply rearranged_refl]. }
  apply andb_true_iff in Hguard as [_ Hright%Z.ltb_lt].
  rewrite PercolateDown_parent by lia.
  set (parent := (index + 1) / 2).
  assert (Hparent : index ≤ 2 * parent ≤ index + 1).
  { unfold parent. Z.div_mod_to_equations. lia. }
  rewrite GetLeftChildNode_fits, GetRightChildNode_fits by lia.
  assert (Hchild : 2 * parent + 2 < _size h) by lia.
  destruct (wf_lookup h (2 * parent + 1) Hwf ltac:(lia)) as [l Hl].
  destruct (wf_lookup h (2 * parent + 2) Hwf ltac:(lia)) as [r Hr].
  pose proof (read_ok h (2 * parent + 1) l (wf_live h Hwf) ltac:(lia) Hl)
    as Hreadl.
  pose proof (read_ok h (2 * parent + 2) r (wf_live h Hwf) ltac:(lia) Hr)
    as Hreadr.
  cbv zeta. rewrite (bind_ok _ _ _ _ _ Hreadl).
  assert (Hstep : ∀ c, index < c < _size h →
            ∃ h', (swap parent c ;; PercolateDown fuel c) h = Ok (tt, h') ∧
                  rearranged h h').
  { intros c Hc. apply PercolateDown_step; [|done|lia|lia].
    intros h1 Hwf1 Hsz. apply IH; [done | lia | lia]. }
  destruct (l >? -1) eqn:Hlpos.
  - assert (Hboth : (r0 <- read (2 * parent + 2) ;; ret (r0 >? -1)) h
                     = Ok (r >? -1, h))
      by (by rewrite (bind_ok _ _ _ _ _ Hreadr)).
    rewrite (bind_ok _ _ _ _ _ Hboth).
    destruct (r >? -1).
    + rewrite (bind_ok _ _ _ _ _ Hreadr).
      destruct (to_unsigned_int (std_max l r) =? to_unsigned_int l);
        apply Hstep; lia.
    + destruct (negb (l =? -1)); apply Hstep; lia.
  - unfold bind at 1, ret at 1.
    destruct (negb (l =? -1)); apply Hstep; lia.
Qed.

(** ** PercolateUp *)

Lemma PercolateUp_unfold (fuel : nat) (index : Z) :
  PercolateUp (S fuel) index =
  (let parent := GetParentNode index in
   needs_swap <-
     (if 0 <? parent
      then p <- read parent ;; c <- read index ;; ret (p <? c)
      else ret false) ;;
   if (needs_swap : bool)
   then swap parent index ;; PercolateUp fuel parent
   else ret tt).
Proof. reflexivity. Qed.

Lemma pow2_succ (n : nat) : 2 ^ Z.of_nat (S n) = 2 * 2 ^ Z.of_nat n.
Proof. rewrite Nat2Z.inj_succ. apply Z.pow_succ_r. lia. Qed.

(** From a node other than the root, on a well-formed object,
    [PercolateUp] returns within its budget, rearranges the logical heap
    and leaves the cell at index 0 as it found it. *)
Lemma PercolateUp_rearranges (fuel : nat) :
  ∀ (index : Z) (h : MinHeap),
    wf h → 1 ≤ index < _size h → index < 2 ^ Z.of_nat fuel →
    ∃ h', PercolateUp fuel index h = Ok (tt, h') ∧ rearranged h h' ∧
          cells (_cache h') !! 0%nat = cells (_cache h) !! 0%nat.
Proof.
  induction fuel as [|fuel IH]; intros index h Hwf Hindex Hfuel;
    [simpl in Hfuel; lia|].
  pose proof (wf_cells h Hwf) as Hcells. pose proof (wf_size h Hwf) as Hsize.
  assert (Hmc : max_cells = 2 ^ 61) by reflexivity.
  assert (Hmod : size_t_modulus = 2 ^ 64) by reflexivity.
  rewrite pow2_succ in Hfuel.
  rewrite PercolateUp_unfold. cbv zeta.
  rewrite GetParentNode_pos by lia.
  set (parent := (index - 1) / 2).
  assert (Hparent : 2 * parent ≤ index - 1 ≤ 2 * parent + 1).
  { unfold parent. Z.div_mod_to_equations. lia. }
  destruct (0 <? parent) eqn:Hpos.
  2:{ unfold bind at 1, ret at 1. exists h.
      split; [done | split; [apply rearranged_refl | done]]. }
  apply Z.ltb_lt in Hpos.
  destruct (wf_lookup h parent Hwf ltac:(lia)) as [p Hp].
  destruct (wf_lookup h index Hwf ltac:(lia)) as [c Hc].
  pose proof (read_ok h parent p (wf_live h Hwf) ltac:(lia) Hp) as Hreadp.
  pose proof (read_ok h index c (wf_live h Hwf) ltac:(lia) Hc) as Hreadc.
  assert (Hcmp : (p0 <- read parent ;; c0 <- read index ;; ret (p0 <? c0)) h
                 = Ok (p <? c, h)).
  { rewrite (bind_ok _ _ _ _ _ Hreadp). by rewrite (bind_ok _ _ _ _ _ Hreadc). }
  rewrite (bind_ok _ _ _ _ _ Hcmp).
  destruct (p <? c).
  2:{ exists h. split; [done | split; [apply rearranged_refl | done]]. }
  destruct (swap_rearranged h parent index Hwf ltac:(lia) ltac:(lia))
    as (h1 & Hswap & Hre1 & _ & Hother).
  destruct (IH parent h1) as (h' & Hrec & Hre2 & Hroot).
  { by eapply rearranged_wf. }
  { rewrite (re_size _ _ Hre1). lia. }
  { lia. }
  exists h'. split; [by rewrite (bind_ok _ _ _ _ _ Hswap)|].
  split; [by eapply rearranged_trans|].
  rewrite Hroot. apply Hother; lia.
Qed.

(** The budget is enough for every index a [size_t] can hold, whatever
    the object looks like: a run may stop at a fault of the program, but
    never for lack of budget. *)
Lemma PercolateUp_within_budget (fuel : nat) :
  ∀ (index : Z) (h : MinHeap),
    1 ≤ index < 2 ^ Z.of_nat fuel →
    PercolateUp fuel index h ≠ Fault OutOfFuel.
Proof.
  induction fuel as [|fuel IH]; intros index h Hindex;
    [simpl in Hindex; lia|].
  rewrite pow2_succ in Hindex.
  assert (Hmod : size_t_modulus = 2 ^ 64) by reflexivity.
  rewrite PercolateUp_unfold. cbv zeta.
  pose proof (size_t_wrap_range (index - 1)) as Hwrap.
  assert (Hle : size_t_wrap (index - 1) ≤ index - 1).
  { unfold size_t_wrap. apply Z.mod_le; lia. }
  set (parent := GetParentNode index).
  assert (Hparent : 0 ≤ parent ∧ 2 * parent ≤ index - 1).
  { unfold parent, GetParentNode. Z.div_mod_to_equations. lia. }
  unfold bind at 1.
  destruct (0 <? parent) eqn:Hpos.
  2:{ unfold ret at 1. done. }
  apply Z.ltb_lt in Hpos.
  unfold bind at 1. unfold read at 1, bind at 1, get_cache at 1, lift at 1.
  destruct (load (_cache h) parent) as [p|f] eqn:Hp;
    [|apply load_fault_not_fuel in Hp; congruence].
  unfold bind at 1. unfold read at 1, bind at 1, get_cache at 1, lift at 1.
  destruct (load (_cache h) index) as [c|f] eqn:Hc;
    [|apply load_fault_not_fuel in Hc; congruence].
  unfold ret at 1.
  destruct (p <? c); [|done].
  unfold bind at 1.
  destruct (swap parent index h) as [[[] h1]|f] eqn:Hswap.
  - apply IH. lia.
  - apply swap_fault_not_fuel in Hswap. congruence.
Qed.

(** [PercolateUp] started at the root: the parent index is
    [(0 - 1) / 2] in [size_t], far beyond any array. *)
Lemma PercolateUp_root_faults (fuel : nat) (h : MinHeap) :
  live (_cache h) = true →
  Z.of_nat (length (cells (_cache h))) ≤ max_cells →
  PercolateUp (S fuel) 0 h = Fault OutOfBounds.
Proof.
  intros Hlive Hcells. rewrite PercolateUp_unfold. cbv zeta.
  rewrite GetParentNode_root.
  change (0 <? 2 ^ 63 - 1) with true. cbv iota.
  unfold bind at 1. unfold bind at 1.
  rewrite read_out_of_bounds; [done | done |].
  unfold max_cells in Hcells. lia.
Qed.

(** ** Insert *)

Lemma Insert_unfold (x : Z) (h : MinHeap) :
  Insert x h =
  ((if _size (grown h) =? _capacity h
    then CacheResize (size_t_wrap (_capacity h * 2))
    else ret tt) ;;
   write (size_t_wrap (_size (grown h) - 1)) x ;;
   PercolateUp PercolateUp_budget (size_t_wrap (_size (grown h) - 1)))
    (grown h).
Proof. reflexivity. Qed.

Lemma CacheResize_unfold (new_capacity : Z) (h : MinHeap) :
  CacheResize new_capacity h =
  (for_each (fun _ i => v <- lift (load (delete_block (_cache h)) i) ;;
                        write i v)
            tt (seqZ 1 (_capacity h - 1)) ;;
   set_capacity new_capacity)
    {| _cache := new_array new_capacity;
       _size := _size h;
       _capacity := _capacity h |}.
Proof. reflexivity. Qed.

(** With an old capacity of two or more the copy loop runs, and its first
    iteration reads [temp[1]] from the block released two lines above. *)
Lemma CacheResize_use_after_free (new_capacity : Z) (h : MinHeap) :
  1 < _capacity h → CacheResize new_capacity h = Fault UseAfterFree.
Proof.
  intros Hcap. rewrite CacheResize_unfold.
  rewrite seqZ_cons by lia. reflexivity.
Qed.

(** With an old capacity below two the loop body never runs: nothing is
    copied, the new cells are all indeterminate. *)
Lemma CacheResize_no_copy (new_capacity : Z) (h : MinHeap) :
  _capacity h ≤ 1 →
  CacheResize new_capacity h =
  Ok (tt, {| _cache := new_array new_capacity;
             _size := _size h;
             _capacity := new_capacity |}).
Proof.
  intros Hcap. rewrite CacheResize_unfold.
  rewrite seqZ_nil by lia. reflexivity.
Qed.

(** An [Insert] that finds the storage full never returns: either the
    copy loop reads released memory, or (old capacity 0 or 1) the freshly
    allocated array is accessed out of bounds. *)
Lemma Insert_resize_faults (x : Z) (h : MinHeap) :
  size_t_wrap (_size h + 1) = _capacity h →
  Insert x h = Fault UseAfterFree ∨ Insert x h = Fault OutOfBounds.
Proof.
  intros Hfull. rewrite Insert_unfold.
  assert (Hsz : _size (grown h) = _capacity h) by exact Hfull.
  rewrite Hsz, Z.eqb_refl.
  pose proof (size_t_wrap_range (_size h + 1)) as Hrange.
  rewrite Hfull in Hrange.
  destruct (decide (1 < _capacity h)) as [Hbig|Hsmall].
  { left. apply bind_fault. by apply CacheResize_use_after_free. }
  right. rewrite (bind_ok _ _ _ _ _ (CacheResize_no_copy _ (grown h) ltac:(simpl; lia))).
  assert (_capacity h = 0 ∨ _capacity h = 1) as [H0|H1] by lia.
  - rewrite H0. apply bind_fault. apply write_out_of_bounds; [done|].
    simpl. change (size_t_wrap (0 - 1)) with (2 ^ 64 - 1).
    change (size_t_wrap (0 * 2)) with 0. simpl. lia.
  - rewrite H1. change (size_t_wrap (1 - 1)) with 0.
    change (size_t_wrap (1 * 2)) with 2.
    erewrite bind_ok; [|by apply write_ok; simpl; [done | lia]].
    apply PercolateUp_root_faults; [done | simpl; unfold max_cells; lia].
Qed.

(** The first [Insert] into an empty heap: whether or not it resizes,
    it ends in an out-of-bounds access. *)
Lemma Insert_empty_faults (x : Z) (h : MinHeap) :
  wf h → _size h = 0 → Insert x h = Fault OutOfBounds.
Proof.
  intros Hwf Hsize. pose proof (wf_cells h Hwf) as Hcells.
  rewrite Insert_unfold.
  assert (Hsz : _size (grown h) = 1) by (simpl; by rewrite Hsize).
  rewrite Hsz. change (size_t_wrap (1 - 1)) with 0.
  destruct (1 =? _capacity h) eqn:Hcap.
  - apply Z.eqb_eq in Hcap.
    rewrite (bind_ok _ _ _ _ _ (CacheResize_no_copy _ (grown h) ltac:(simpl; lia))).
    rewrite <-Hcap. change (size_t_wrap (1 * 2)) with 2.
    erewrite bind_ok; [|by apply write_ok; simpl; [done | lia]].
    apply PercolateUp_root_faults; [done | simpl; unfold max_cells; lia].
  - unfold bind at 1, ret at 1.
    destruct (decide (0 < Z.of_nat (length (cells (_cache h))))) as [Hne|He].
    + erewrite bind_ok;
        [|apply write_ok; simpl; [apply Hwf | lia]].
      apply PercolateUp_root_faults; simpl; [done|].
      rewrite length_insert. done.
    + apply bind_fault. apply write_out_of_bounds; simpl; [apply Hwf | lia].
Qed.

Lemma appended_wf (x : Z) (h : MinHeap) :
  wf h → _size h < Z.of_nat (length (cells (_cache h))) → wf (appended x h).
Proof.
  intros [Hlive Hcells Hsize Hinit] Hroom. split; simpl.
  - done.
  - by rewrite length_insert.
  - rewrite length_insert. lia.
  - unfold initialised in *. simpl.
    replace (Z.to_nat (_size h + 1)) with (S (Z.to_nat (_size h))) by lia.
    erewrite take_S_r; [|apply list_lookup_insert_eq; lia].
    rewrite take_insert_ge by lia.
    apply Forall_app. split; [done|]. by repeat constructor.
Qed.

(** The successful path of [Insert]: at least one element present, room
    in the storage, no resize. *)
Lemma Insert_ok (x : Z) (h : MinHeap) :
  wf h → 1 ≤ _size h →
  _size h < Z.of_nat (length (cells (_cache h))) →
  size_t_wrap (_size h + 1) ≠ _capacity h →
  ∃ h', Insert x h = Ok (tt, h') ∧ rearranged (appended x h) h' ∧
        cells (_cache h') !! 0%nat = cells (_cache h) !! 0%nat.
Proof.
  intros Hwf Hne Hroom Hcap.
  pose proof (wf_cells h Hwf) as Hcells.
  assert (Hmc : max_cells = 2 ^ 61) by reflexivity.
  assert (Hmod : size_t_modulus = 2 ^ 64) by reflexivity.
  rewrite Insert_unfold.
  assert (Hsz : _size (grown h) = _size h + 1).
  { simpl. apply size_t_wrap_small. lia. }
  rewrite Hsz.
  replace (_size h + 1 - 1) with (_size h) by lia.
  rewrite (size_t_wrap_small (_size h)) by lia.
  rewrite <-Hsz. simpl (_size (grown h)).
  destruct (size_t_wrap (_size h + 1) =? _capacity h) eqn:Heq;
    [apply Z.eqb_eq in Heq; done|].
  unfold bind at 1, ret at 1.
  assert (Hwrite : write (_size h) x (grown h) = Ok (tt, appended x h)).
  { rewrite write_ok; simpl; [|apply Hwf|lia].
    unfold with_cells, appended. simpl. do 3 f_equal.
    apply size_t_wrap_small. lia. }
  rewrite (bind_ok _ _ _ _ _ Hwrite).
  destruct (PercolateUp_rearranges PercolateUp_budget (_size h) (appended x h))
    as (h' & Hup & Hre & Hroot).
  { by apply appended_wf. }
  { simpl. lia. }
  { change (2 ^ Z.of_nat PercolateUp_budget) with (2 ^ 66). lia. }
  exists h'. split; [done|]. split; [done|].
  rewrite Hroot. simpl. apply list_lookup_insert_ne. lia.
Qed.

(** With no free cell left and no resize, the store of the new element
    is out of bounds. *)
Lemma Insert_no_room_faults (x : Z) (h : MinHeap) :
  wf h → _size h = Z.of_nat (length (cells (_cache h))) →
  size_t_wrap (_size h + 1) ≠ _capacity h →
  Insert x h = Fault OutOfBounds.
Proof.
  intros Hwf Hfull Hcap. pose proof (wf_cells h Hwf) as Hcells.
  assert (Hmc : max_cells = 2 ^ 61) by reflexivity.
  assert (Hmod : size_t_modulus = 2 ^ 64) by reflexivity.
  rewrite Insert_unfold. simpl (_size (grown h)).
  destruct (size_t_wrap (_size h + 1) =? _capacity h) eqn:Heq;
    [apply Z.eqb_eq in Heq; done|].
  unfold bind at 1, ret at 1.
  apply bind_fault. apply write_out_of_bounds; simpl; [apply Hwf|].
  rewrite (size_t_wrap_small (_size h + 1)) by lia.
  replace (_size h + 1 - 1) with (_size h) by lia.
  rewrite size_t_wrap_small by lia. lia.
Qed.

(** Every successful [Insert] on a well-formed object is the path of
    [Insert_ok]. *)
Lemma Insert_inv (x : Z) (h h' : MinHeap) (u : unit) :
  wf h → Insert x h = Ok (u, h') →
  1 ≤ _size h ∧ _size h < Z.of_nat (length (cells (_cache h))) ∧
  size_t_wrap (_size h + 1) ≠ _capacity h ∧
  rearranged (appended x h) h' ∧
  cells (_cache h') !! 0%nat = cells (_cache h) !! 0%nat.
Proof.
  intros Hwf Hins. pose proof (wf_size h Hwf) as Hsize.
  destruct (decide (size_t_wrap (_size h + 1) = _capacity h)) as [Hfull|Hcap].
  { destruct (Insert_resize_faults x h Hfull); congruence. }
  destruct (decide (_size h = 0)) as [Hempty|Hne].
  { rewrite Insert_empty_faults in Hins; done. }
  destruct (decide (_size h = Z.of_nat (length (cells (_cache h)))))
    as [Hnoroom|Hroom].
  { rewrite Insert_no_room_faults in Hins; done. }
  destruct (Insert_ok x h Hwf) as (h'' & Hok & Hre & Hroot); [lia..|done|].
  rewrite Hok in Hins. injection Hins as _ ->.
  split; [lia|]. split; [lia|]. done.
Qed.

(** ** Delete *)

Lemma Delete_unfold (h : MinHeap) :
  Delete h =
  (swap 0 (size_t_wrap (_size h - 1)) ;;
   set_size (size_t_wrap (_size h - 1)) ;;
   size <- get_size ;;
   PercolateDown (S (Z.to_nat size)) 0) h.
Proof. reflexivity. Qed.

(** [Delete] on an empty heap: [_size - 1] wraps to [2^64 - 1] and the
    swap of [_cache[0]] with [_cache[2^64 - 1]] is a fault, at its first
    read when cell 0 was never written, at its second otherwise. *)
Lemma Delete_empty_faults (h : MinHeap) :
  wf h → _size h = 0 →
  Delete h = Fault Indeterminate ∨ Delete h = Fault OutOfBounds.
Proof.
  intros Hwf Hsize. pose proof (wf_cells h Hwf) as Hcells.
  pose proof (wf_live h Hwf) as Hlive.
  assert (Hmc : max_cells = 2 ^ 61) by reflexivity.
  rewrite Delete_unfold, Hsize.
  change (size_t_wrap (0 - 1)) with (2 ^ 64 - 1).
  assert (Hswap : swap 0 (2 ^ 64 - 1) h = Fault Indeterminate ∨
                  swap 0 (2 ^ 64 - 1) h = Fault OutOfBounds).
  { unfold swap.
    destruct (cells (_cache h) !! 0%nat) as [[v|]|] eqn:Hroot.
    - right. rewrite (bind_ok _ _ _ _ _ (read_ok h 0 v Hlive ltac:(lia) Hroot)).
      apply bind_fault. apply read_out_of_bounds; [done | lia].
    - left. apply bind_fault. by apply read_indeterminate.
    - right. apply bind_fault. apply read_out_of_bounds; [done|].
      apply lookup_ge_None in Hroot. lia. }
  destruct Hswap as [Hswap|Hswap]; [left | right]; by apply bind_fault.
Qed.

Lemma shrunk_wf (h : MinHeap) : wf h → 0 < _size h → wf (shrunk h).
Proof.
  intros [Hlive Hcells Hsize Hinit] Hne. split; simpl; try done; [lia|].
  unfold initialised in *. simpl.
  replace (Z.to_nat (_size h - 1))
    with (Z.to_nat (_size h - 1) `min` Z.to_nat (_size h))%nat by lia.
  rewrite <-take_take. by apply Forall_take.
Qed.

(** On a non-empty well-formed heap [Delete] returns.  It takes the
    root's cell out of the logical heap, parks it in the cell just past
    the new end, and rearranges what remains. *)
Lemma Delete_ok (h : MinHeap) :
  wf h → 0 < _size h →
  ∃ h', Delete h = Ok (tt, h') ∧ wf h' ∧
        _size h' = _size h - 1 ∧ _capacity h' = _capacity h ∧
        length (cells (_cache h')) = length (cells (_cache h)) ∧
        cells (_cache h') !! Z.to_nat (_size h - 1) = cells (_cache h) !! 0%nat ∧
        contents h ≡ₚ contents h' ++ [cells (_cache h) !! 0%nat ≫= id] ∧
        drop (Z.to_nat (_size h)) (cells (_cache h'))
        = drop (Z.to_nat (_size h)) (cells (_cache h)).
Proof.
  intros Hwf Hne.
  pose proof (wf_cells h Hwf) as Hcells. pose proof (wf_size h Hwf) as Hsize.
  assert (Hmc : max_cells = 2 ^ 61) by reflexivity.
  assert (Hmod : size_t_modulus = 2 ^ 64) by reflexivity.
  rewrite Delete_unfold.
  rewrite (size_t_wrap_small (_size h - 1)) by lia.
  destruct (swap_rearranged h 0 (_size h - 1) Hwf ltac:(lia) ltac:(lia))
    as (h1 & Hswap & Hre1 & Hlast & _).
  change (Z.to_nat 0) with 0%nat in Hlast.
  pose proof (rearranged_wf _ _ Hwf Hre1) as Hwf1.
  rewrite (bind_ok _ _ _ _ _ Hswap).
  assert (Hmid : (set_size (_size h - 1) ;;
                  size <- get_size ;;
                  PercolateDown (S (Z.to_nat size)) 0) h1
                 = PercolateDown (S (Z.to_nat (_size h - 1))) 0 (shrunk h1)).
  { unfold shrunk. rewrite (re_size _ _ Hre1). reflexivity. }
  rewrite Hmid.
  assert (Hwf2 : wf (shrunk h1)).
  { apply shrunk_wf; [done|]. rewrite (re_size _ _ Hre1). lia. }
  destruct (PercolateDown_rearranges (S (Z.to_nat (_size h - 1))) 0 (shrunk h1))
    as (h' & Hdown & Hre2); [done | | |].
  { simpl. rewrite (re_size _ _ Hre1). lia. }
  { simpl. rewrite (re_size _ _ Hre1). lia. }
  exists h'. split; [done|].
  assert (Hsz1 : _size (shrunk h1) = _size h - 1).
  { simpl. by rewrite (re_size _ _ Hre1). }
  assert (Hsz' : _size h' = _size h - 1).
  { by rewrite (re_size _ _ Hre2). }
  assert (Hlen : length (cells (_cache h')) = length (cells (_cache h))).
  { rewrite (rearranged_length _ _ Hre2). simpl.
    apply (rearranged_length _ _ Hre1). }
  assert (Hparked : cells (_cache h') !! Z.to_nat (_size h - 1)
                    = cells (_cache h) !! 0%nat).
  { rewrite (rearranged_suffix_lookup _ _ _ Hre2) by lia. exact Hlast. }
  split; [by eapply rearranged_wf|].
  split; [done|].
  split; [rewrite (re_capacity _ _ Hre2); simpl; apply Hre1|].
  split; [done|]. split; [done|]. split.
  - destruct (wf_lookup h 0 Hwf ltac:(lia)) as [x Hx].
    change (Z.to_nat 0) with 0%nat in Hx.
    rewrite <-(re_prefix _ _ Hre1).
    unfold contents at 1. rewrite (re_size _ _ Hre1).
    replace (Z.to_nat (_size h)) with (S (Z.to_nat (_size h - 1))) by lia.
    erewrite take_S_r; [|by rewrite Hlast, Hx].
    rewrite Hx. simpl. apply Permutation_app; [|done].
    rewrite (re_prefix _ _ Hre2). unfold contents. by rewrite Hsz1.
  - rewrite <-(re_suffix _ _ Hre1).
    pose proof (re_suffix _ _ Hre2) as Hsuf. rewrite Hsz1 in Hsuf.
    simpl in Hsuf.
    replace (Z.to_nat (_size h)) with (Z.to_nat (_size h - 1) + 1)%nat by lia.
    rewrite <-!drop_drop. by rewrite Hsuf.
Qed.

Lemma Delete_inv (h h' : MinHeap) (u : unit) :
  wf h → Delete h = Ok (u, h') →
  0 < _size h ∧ wf h' ∧ _size h' = _size h - 1 ∧
  _capacity h' = _capacity h ∧
  contents h ≡ₚ contents h' ++ [cells (_cache h) !! 0%nat ≫= id].
Proof.
  intros Hwf Hdel. pose proof (wf_size h Hwf) as Hsize.
  destruct (decide (_size h = 0)) as [Hempty|Hne].
  { destruct (Delete_empty_faults h Hwf Hempty); congruence. }
  destruct (Delete_ok h Hwf ltac:(lia))
    as (h'' & Hok & Hwf' & Hsz & Hcap & _ & _ & Hperm & _).
  rewrite Hok in Hdel. injection Hdel as _ ->.
  split; [lia | done].
Qed.

(** On a well-formed object neither public operation stops for lack of
    budget: every fault is one of the program. *)
Lemma budgets_suffice (x : Z) (h : MinHeap) :
  wf h → Insert x h ≠ Fault OutOfFuel ∧ Delete h ≠ Fault OutOfFuel.
Proof.
  intros Hwf. pose proof (wf_size h Hwf) as Hsize. split.
  - destruct (decide (size_t_wrap (_size h + 1) = _capacity h)) as [Hfull|Hcap].
    { destruct (Insert_resize_faults x h Hfull); congruence. }
    destruct (decide (_size h = 0)) as [Hempty|Hne].
    { rewrite Insert_empty_faults; done. }
    destruct (decide (_size h = Z.of_nat (length (cells (_cache h)))))
      as [Hnoroom|Hroom].
    { rewrite Insert_no_room_faults; done. }
    destruct (Insert_ok x h Hwf) as (h' & -> & _); [lia | lia | done | done].
  - destruct (decide (_size h = 0)) as [Hempty|Hne].
    { destruct (Delete_empty_faults h Hwf Hempty); congruence. }
    destruct (Delete_ok h Hwf ltac:(lia)) as (h' & -> & _). done.
Qed.

(** ** Example states *)

Lemma heap_of_wf (vals : list Z) (len : nat) (capacity : Z) :
  (length vals ≤ len)%nat → Z.of_nat len ≤ max_cells →
  wf (heap_of vals len capacity).
Proof.
  intros Hlen Hmax. split; simpl.
  - done.
  - rewrite length_app, length_fmap, length_replicate. lia.
  - rewrite length_app, length_fmap, length_replicate. lia.
  - unfold initialised. simpl. rewrite Nat2Z.id.
    rewrite take_app_length' by (by rewrite length_fmap).
    apply Forall_fmap, Forall_true. intros v. by exists v.
Qed.

Lemma heap_of_contents (vals : list Z) (len : nat) (capacity : Z) :
  contents (heap_of vals len capacity) = Some <$> vals.
Proof.
  unfold contents. simpl. rewrite Nat2Z.id.
  apply take_app_length'. by rewrite length_fmap.
Qed.

(** ** The heap-order invariant *)

Lemma heap_order_b_spec (h : MinHeap) :
  heap_order_b h = true ↔ heap_order h.
Proof.
  unfold heap_order_b, heap_order.
  rewrite <-Is_true_true, forallb_True, Forall_forall.
  split.
  - intros Hall i Hi. apply Is_true_true, Hall, elem_of_seqZ. lia.
  - intros Hall i Hi%elem_of_seqZ. apply Is_true_true, Hall. lia.
Qed.

(** Under the invariant no element of the logical heap exceeds the
    root. *)
Lemma heap_order_root_max (h : MinHeap) (root : Z) :
  heap_order h → value_at h 0 = Some root →
  ∀ i v, 0 ≤ i < _size h → value_at h i = Some v → v ≤ root.
Proof.
  intros Hord Hroot.
  assert (Hall : ∀ (n : nat) (i v : Z),
             0 ≤ i ≤ Z.of_nat n → i < _size h →
             value_at h i = Some v → v ≤ root).
  { induction n as [|n IH]; intros i v Hi Hlt Hv.
    - assert (i = 0) as -> by lia. rewrite Hroot in Hv.
      injection Hv as ->. lia.
    - destruct (decide (i = 0)) as [->|Hnz].
      { rewrite Hroot in Hv. injection Hv as ->. lia. }
      specialize (Hord i ltac:(lia)). unfold ordered_at in Hord.
      rewrite Hv in Hord.
      destruct (value_at h ((i - 1) / 2)) as [p|] eqn:Hp; [|done].
      apply Z.leb_le in Hord.
      assert (0 ≤ (i - 1) / 2 ≤ Z.of_nat n ∧ (i - 1) / 2 < _size h) as [? ?].
      { Z.div_mod_to_equations. lia. }
      specialize (IH ((i - 1) / 2) p ltac:(done) ltac:(done) Hp). lia. }
  intros i v Hi Hv. apply (Hall (Z.to_nat i) i v); [lia | lia | done].
Qed.

Lemma value_at_lookup (h : MinHeap) (i v : Z) :
  0 ≤ i → cells (_cache h) !! Z.to_nat i = Some (Some v) →
  value_at h i = Some v.
Proof.
  intros Hi Hcell. unfold value_at.
  destruct (0 <=? i) eqn:Hle; [|apply Z.leb_gt in Hle; lia].
  by rewrite Hcell.
Qed.

(** ** Print *)

Lemma Forall_is_Some_fmap (l : list (option Z)) :
  Forall is_Some l → ∃ vals, l = Some <$> vals.
Proof.
  induction 1 as [|c l [v ->] _ [vals ->]].
  - by exists [].
  - by exists (v :: vals).
Qed.

Lemma Print_loop (h : MinHeap) :
  live (_cache h) = true →
  ∀ (vals : list Z) (start : Z) (out : ostream),
    0 ≤ start →
    (∀ (k : nat) v, vals !! k = Some v →
       cells (_cache h) !! (Z.to_nat start + k)%nat = Some (Some v)) →
    for_each (fun out i => v <- read i ;; ret (out ++ [(i, v)]))
             out (seqZ start (Z.of_nat (length vals))) h
    = Ok (out ++ zip (seqZ start (Z.of_nat (length vals))) vals, h).
Proof.
  intros Hlive.
  induction vals as [|v vals IH]; intros start out Hstart Hcells.
  - change (Z.of_nat (length (@nil Z))) with 0.
    rewrite seqZ_nil by lia. simpl. by rewrite app_nil_r.
  - rewrite seqZ_cons by (simpl; lia).
    replace (Z.pred (Z.of_nat (length (v :: vals))))
      with (Z.of_nat (length vals)) by (simpl; lia).
    simpl for_each.
    assert (Hread : read start h = Ok (v, h)).
    { apply read_ok; [done | done |].
      specialize (Hcells 0%nat v eq_refl).
      by rewrite Nat.add_0_r in Hcells. }
    unfold bind at 1. unfold bind at 1. rewrite Hread. unfold ret at 1.
    rewrite IH; [|lia|].
    + simpl. by rewrite <-app_assoc.
    + intros k w Hk. specialize (Hcells (S k) w Hk).
      replace (Z.to_nat (Z.succ start) + k)%nat
        with (Z.to_nat start + S k)%nat by lia.
      done.
Qed.

(** On a well-formed object [Print] writes one line per element of the
    logical heap, in array order, and leaves the object alone. *)
Lemma Print_lines (h : MinHeap) (out : ostream) :
  wf h →
  ∃ vals, contents h = Some <$> vals ∧
          Print out h = Ok (out ++ zip (seqZ 0 (_size h)) vals, h).
Proof.
  intros Hwf. pose proof (wf_size h Hwf) as Hsize.
  destruct (Forall_is_Some_fmap (contents h) (wf_init h Hwf)) as [vals Hvals].
  exists vals. split; [done|].
  assert (Hlen : Z.of_nat (length vals) = _size h).
  { apply (f_equal length) in Hvals.
    unfold contents in Hvals. rewrite length_take, length_fmap in Hvals. lia. }
  unfold Print. unfold bind at 1, get_size at 1.
  rewrite <-Hlen. apply Print_loop; [apply Hwf | lia |].
  intros k v Hk. simpl.
  assert (k < length vals)%nat by (by eapply lookup_lt_Some).
  rewrite <-(lookup_take_lt _ (Z.to_nat (_size h))) by lia.
  fold (contents h). rewrite Hvals, list_lookup_fmap, Hk. done.
Qed.

(** ** Sequences of public operations *)

Lemma perform_size (o : operation) (h h' : MinHeap) (u : unit) :
  wf h → perform o h = Ok (u, h') →
  wf h' ∧ _size h' = _size h + net_growth [o].
Proof.
  intros Hwf Hrun. destruct o as [x|]; simpl in *.
  - apply Insert_inv in Hrun as (Hne & Hroom & _ & Hre & _); [|done].
    split.
    + eapply rearranged_wf; [|exact Hre]. by apply appended_wf.
    + rewrite (re_size _ _ Hre). simpl. lia.
  - apply Delete_inv in Hrun as (_ & Hwf' & Hsz & _); [|done].
    split; [done | lia].
Qed.

Lemma run_size (ops : list operation) :
  ∀ (h h' : MinHeap) (u : unit),
    wf h → run ops h = Ok (u, h') →
    wf h' ∧ _size h' = _size h + net_growth ops.
Proof.
  induction ops as [|o ops IH]; intros h h' u Hwf Hrun.
  - simpl in Hrun. injection Hrun as _ <-. split; [done | simpl; lia].
  - simpl run in Hrun. apply bind_inv in Hrun as ([] & h1 & Hstep & Hrest).
    apply perform_size in Hstep as [Hwf1 Hsz1]; [|done].
    apply IH in Hrest as [Hwf' Hsz']; [|done].
    split; [done|]. rewrite Hsz', Hsz1.
    destruct o; simpl; lia.
Qed.

(** The object the constructor call of BinaryHeap.cpp produces. *)
Lemma MinHeap_ctor_demo : MinHeap_ctor 14 = Ok (heap_of [] 15 14).
Proof. reflexivity. Qed.

Lemma MinHeap_ctor_wf (capacity : Z) (h : MinHeap) :
  0 ≤ capacity < max_cells → MinHeap_ctor capacity = Ok h → wf h.
Proof.
  intros Hcap [= <-].
  assert (Hmc : max_cells = 2 ^ 61) by reflexivity.
  assert (Hmod : size_t_modulus = 2 ^ 64) by reflexivity.
  split; simpl; rewrite ?length_replicate, ?size_t_wrap_small by lia.
  - done.
  - lia.
  - lia.
  - unfold initialised. simpl. constructor.
Qed.

(** * The claims *)

(** C1 (the code violates it).  Heap order after every public operation:
    evaluated on the code, both operations turn an ordered heap into an
    unordered one.  [Insert 9] into the heap [7] leaves 7 at the root
    above 9, because [PercolateUp] refuses every swap with index 0;
    [Delete] on the heap [5; 4; 3] leaves [3; 4], because
    [PercolateDown] stops as soon as the right child is missing; and
    the insertions of BinaryHeap.cpp after the first end with 1 at the
    root. *)
Theorem heap_order_not_preserved :
  (heap_order_b (heap_of [7] 15 14) = true ∧
   ∃ h', Insert 9 (heap_of [7] 15 14) = Ok (tt, h') ∧
         contents h' = [Some 7; Some 9] ∧ heap_order_b h' = false) ∧
  (heap_order_b (heap_of [5; 4; 3] 15 14) = true ∧
   ∃ h', Delete (heap_of [5; 4; 3] 15 14) = Ok (tt, h') ∧
         contents h' = [Some 3; Some 4] ∧ heap_order_b h' = false) ∧
  (∃ h', run [OpInsert 2; OpInsert 3; OpInsert 4; OpInsert 7; OpInsert 5;
              OpInsert 11] (heap_of [1] 15 14) = Ok (tt, h') ∧
         contents h' = [Some 1; Some 7; Some 11; Some 2; Some 4; Some 3; Some 5] ∧
         heap_order_b h' = false).
Proof.
  split; [|split].
  - split; [reflexivity|].
    eexists. split; [vm_compute; reflexivity|]. split; reflexivity.
  - split; [reflexivity|].
    eexists. split; [vm_compute; reflexivity|]. split; reflexivity.
  - eexists. split; [vm_compute; reflexivity|]. split; reflexivity.
Qed.

(** C2 (the code violates it).  Sorted extraction: on a freshly
    constructed heap the very first [Insert] ends in an out-of-bounds
    access; past that defect, inserting 2 into the heap [1] and
    extracting twice removes 1 and then 2, and the scenario of the
    specification (5, 3, 8, 1) comes out as 5, 8, 1, 3 when no resize
    interferes, and ends in a read of released memory when the capacity
    is 4. *)
Theorem extraction_not_sorted :
  (∃ h0, MinHeap_ctor 4 = Ok h0 ∧
         (run [OpInsert 1; OpInsert 2] ;; extract_all 2) h0
         = Fault OutOfBounds) ∧
  (∃ h', (Insert 2 ;; extract_all 2) (heap_of [1] 5 4) = Ok ([1; 2], h')) ∧
  (∃ h', (run [OpInsert 3; OpInsert 8; OpInsert 1] ;; extract_all 4)
           (heap_of [5] 15 14) = Ok ([5; 8; 1; 3], h')) ∧
  (run [OpInsert 3; OpInsert 8; OpInsert 1] ;; extract_all 4)
    (heap_of [5] 5 4) = Fault UseAfterFree.
Proof.
  split; [|split; [|split]].
  - eexists. split; [reflexivity | vm_compute; reflexivity].
  - eexists. vm_compute. reflexivity.
  - eexists. vm_compute. reflexivity.
  - vm_compute. reflexivity.
Qed.

(** C3, as stated, fails: the value [Delete] hands back (it is declared
    [void]) cannot be the root.  No reading of the returned [unit] as an
    integer gives the root of both the heap [5; 3] and the heap [7; 3]. *)
Lemma Delete_returns_no_value :
  ¬ ∃ as_int : unit → Z,
      ∀ (h h' : MinHeap) (u : unit),
        wf h → 0 < _size h → Delete h = Ok (u, h') →
        value_at h 0 = Some (as_int u).
Proof.
  intros [as_int Hret].
  assert (Hwf5 : wf (heap_of [5; 3] 4 4))
    by (apply heap_of_wf; [simpl; lia | vm_compute; discriminate]).
  assert (Hwf7 : wf (heap_of [7; 3] 4 4))
    by (apply heap_of_wf; [simpl; lia | vm_compute; discriminate]).
  destruct (Delete_ok _ Hwf5 ltac:(simpl; lia)) as (h5 & Hd5 & _).
  destruct (Delete_ok _ Hwf7 ltac:(simpl; lia)) as (h7 & Hd7 & _).
  pose proof (Hret _ _ _ Hwf5 ltac:(simpl; lia) Hd5) as H5.
  pose proof (Hret _ _ _ Hwf7 ltac:(simpl; lia) Hd7) as H7.
  vm_compute in H5, H7. congruence.
Qed.

(** C3, amended.  On every well-formed heap with [_size > 0], [Delete]
    returns (nothing: it is [void]); it takes the root out of the
    logical heap, whose remaining elements are the old ones less one
    occurrence of the root; the removed value is left in the cell just
    past the new end; [_size] decreases by exactly 1.  The removed root
    is the maximum whenever heap order held on entry. *)
Theorem Delete_removes_root (h : MinHeap)
    (Hwf : wf h) (Hne : 0 < _size h) :
  ∃ (root : Z) (h' : MinHeap),
    value_at h 0 = Some root ∧
    Delete h = Ok (tt, h') ∧
    _size h' = _size h - 1 ∧
    contents h ≡ₚ contents h' ++ [Some root] ∧
    value_at h' (_size h') = Some root ∧
    (heap_order h →
     ∀ i v, 0 ≤ i < _size h → value_at h i = Some v → v ≤ root).
Proof.
  destruct (wf_lookup h 0 Hwf ltac:(lia)) as [root Hroot].
  change (Z.to_nat 0) with 0%nat in Hroot.
  destruct (Delete_ok h Hwf Hne)
    as (h' & Hdel & _ & Hsz & _ & _ & Hparked & Hperm & _).
  assert (Hval : value_at h 0 = Some root) by (by apply value_at_lookup).
  exists root, h'. split; [done|]. split; [done|]. split; [done|].
  split; [by rewrite Hroot in Hperm|]. split.
  - rewrite Hsz. apply value_at_lookup; [lia|]. by rewrite Hparked.
  - intros Hord. by apply heap_order_root_max.
Qed.

Lemma Delete_removes_root_witness :
  wf (heap_of [8; 5; 3; 1] 5 4) ∧ 0 < _size (heap_of [8; 5; 3; 1] 5 4) ∧
  ∃ (root : Z) (h' : MinHeap),
    value_at (heap_of [8; 5; 3; 1] 5 4) 0 = Some root ∧
    Delete (heap_of [8; 5; 3; 1] 5 4) = Ok (tt, h') ∧
    _size h' = _size (heap_of [8; 5; 3; 1] 5 4) - 1 ∧
    contents (heap_of [8; 5; 3; 1] 5 4) ≡ₚ contents h' ++ [Some root] ∧
    value_at h' (_size h') = Some root ∧
    (heap_order (heap_of [8; 5; 3; 1] 5 4) →
     ∀ i v, 0 ≤ i < _size (heap_of [8; 5; 3; 1] 5 4) →
            value_at (heap_of [8; 5; 3; 1] 5 4) i = Some v → v ≤ root).
Proof.
  assert (Hwf : wf (heap_of [8; 5; 3; 1] 5 4))
    by (apply heap_of_wf; [simpl; lia | vm_compute; discriminate]).
  assert (Hne : 0 < _size (heap_of [8; 5; 3; 1] 5 4)) by (simpl; lia).
  split; [exact Hwf|]. split; [exact Hne|].
  exact (Delete_removes_root (heap_of [8; 5; 3; 1] 5 4) Hwf Hne).
Defined.

(** C4 (the code violates it).  [Delete] has no emptiness check and no
    [EmptyHeap] error: on every well-formed heap with [_size = 0] the
    index [_size - 1] wraps to [2^64 - 1] and the swap of [_cache[0]]
    with [_cache[2^64 - 1]] is undefined, a read of an indeterminate
    cell on a fresh heap and an out-of-bounds access otherwise. *)
Theorem Delete_on_empty_heap (h : MinHeap)
    (Hwf : wf h) (Hempty : _size h = 0) :
  size_t_wrap (_size h - 1) = 2 ^ 64 - 1 ∧
  (Delete h = Fault Indeterminate ∨ Delete h = Fault OutOfBounds).
Proof.
  split; [by rewrite Hempty | by apply Delete_empty_faults].
Qed.

Lemma Delete_on_empty_heap_witness :
  wf (heap_of [] 15 14) ∧ _size (heap_of [] 15 14) = 0 ∧
  MinHeap_ctor 14 = Ok (heap_of [] 15 14) ∧
  size_t_wrap (_size (heap_of [] 15 14) - 1) = 2 ^ 64 - 1 ∧
  (Delete (heap_of [] 15 14) = Fault Indeterminate ∨
   Delete (heap_of [] 15 14) = Fault OutOfBounds).
Proof.
  assert (Hwf : wf (heap_of [] 15 14))
    by (apply heap_of_wf; [simpl; lia | vm_compute; discriminate]).
  split; [exact Hwf|]. split; [reflexivity|]. split; [reflexivity|].
  exact (Delete_on_empty_heap (heap_of [] 15 14) Hwf eq_refl).
Defined.

(** C5 (the code violates it).  An [Insert] that finds the storage full
    never returns.  [CacheResize] releases the old block before its copy
    loop reads from it, so with an old capacity of two or more the first
    iteration is a read of released memory; with an old capacity of 0 or
    1 nothing is copied and the fresh array is accessed out of bounds.
    The loop, moreover, starts at 1: index 0 is not in its range. *)
Theorem Insert_when_full (x : Z) (h : MinHeap)
    (Hfull : size_t_wrap (_size h + 1) = _capacity h) :
  (Insert x h = Fault UseAfterFree ∨ Insert x h = Fault OutOfBounds) ∧
  (1 < _capacity h → Insert x h = Fault UseAfterFree) ∧
  0 ∉ seqZ 1 (_capacity h - 1).
Proof.
  split; [by apply Insert_resize_faults|]. split.
  - intros Hbig. rewrite Insert_unfold.
    assert (Hsz : _size (grown h) = _capacity h) by exact Hfull.
    rewrite Hsz, Z.eqb_refl.
    apply bind_fault. by apply CacheResize_use_after_free.
  - rewrite elem_of_seqZ. lia.
Qed.

Lemma Insert_when_full_witness :
  size_t_wrap (_size (heap_of [7] 3 2) + 1) = _capacity (heap_of [7] 3 2) ∧
  (Insert 9 (heap_of [7] 3 2) = Fault UseAfterFree ∨
   Insert 9 (heap_of [7] 3 2) = Fault OutOfBounds) ∧
  (1 < _capacity (heap_of [7] 3 2) →
   Insert 9 (heap_of [7] 3 2) = Fault UseAfterFree) ∧
  0 ∉ seqZ 1 (_capacity (heap_of [7] 3 2) - 1).
Proof.
  split; [reflexivity|].
  exact (Insert_when_full 9 (heap_of [7] 3 2) eq_refl).
Defined.




(** C7.  Size accounting.  A constructed heap has [_size = 0] and prints
    nothing.  From any well-formed heap, every [Insert] that returns
    adds exactly 1 to [_size], every [Delete] that returns subtracts
    exactly 1, a sequence of operations that returns changes [_size] by
    its insertions less its deletions, and [Print] then writes exactly
    [_size] lines: the cells [0 .. _size - 1], in array order. *)
Theorem size_accounting (capacity : Z) (ops : list operation)
    (h h' : MinHeap) (Hwf : wf h) (Hrun : run ops h = Ok (tt, h')) :
  (∃ h0, MinHeap_ctor capacity = Ok h0 ∧ _size h0 = 0 ∧
         Print [] h0 = Ok ([], h0) ∧
         (0 ≤ capacity < max_cells → wf h0)) ∧
  (∀ x h1 h2, wf h1 → Insert x h1 = Ok (tt, h2) → _size h2 = _size h1 + 1) ∧
  (∀ h1 h2, wf h1 → Delete h1 = Ok (tt, h2) → _size h2 = _size h1 - 1) ∧
  _size h' = _size h + net_growth ops ∧
  ∃ vals : list Z,
    Print [] h' = Ok (zip (seqZ 0 (_size h')) vals, h') ∧
    Z.of_nat (length (zip (seqZ 0 (_size h')) vals)) = _size h' ∧
    Some <$> vals = contents h'.
Proof.
  split; [|split; [|split; [|split]]].
  - eexists. split; [reflexivity|]. split; [reflexivity|].
    split; [reflexivity|]. intros Hcap. by eapply MinHeap_ctor_wf.
  - intros x h1 h2 Hwf1 Hins.
    apply (perform_size (OpInsert x)) in Hins as [_ ->]; [simpl; lia | done].
  - intros h1 h2 Hwf1 Hdel.
    apply (perform_size OpDelete) in Hdel as [_ ->]; [simpl; lia | done].
  - by apply run_size in Hrun as [_ ->].
  - apply run_size in Hrun as [Hwf' _]; [|done].
    destruct (Print_lines h' [] Hwf') as (vals & Hvals & Hprint).
    exists vals. split; [done|]. split; [|done].
    assert (Hlen : Z.of_nat (length vals) = _size h').
    { apply (f_equal length) in Hvals. pose proof (wf_size h' Hwf').
      unfold contents in Hvals. rewrite length_take, length_fmap in Hvals.
      lia. }
    rewrite length_zip, length_seqZ. lia.
Qed.

Lemma size_accounting_witness :
  wf (heap_of [7] 15 14) ∧
  run [OpInsert 9; OpDelete; OpInsert 3] (heap_of [7] 15 14)
  = Ok (tt, heap_of [9; 3] 15 14) ∧
  _size (heap_of [9; 3] 15 14)
  = _size (heap_of [7] 15 14) + net_growth [OpInsert 9; OpDelete; OpInsert 3] ∧
  ∃ vals : list Z,
    Print [] (heap_of [9; 3] 15 14)
    = Ok (zip (seqZ 0 (_size (heap_of [9; 3] 15 14))) vals,
          heap_of [9; 3] 15 14) ∧
    Z.of_nat (length (zip (seqZ 0 (_size (heap_of [9; 3] 15 14))) vals))
    = _size (heap_of [9; 3] 15 14) ∧
    Some <$> vals = contents (heap_of [9; 3] 15 14).
Proof.
  assert (Hwf : wf (heap_of [7] 15 14))
    by (apply heap_of_wf; [simpl; lia | vm_compute; discriminate]).
  assert (Hrun : run [OpInsert 9; OpDelete; OpInsert 3] (heap_of [7] 15 14)
                 = Ok (tt, heap_of [9; 3] 15 14))
    by (vm_compute; reflexivity).
  split; [exact Hwf|]. split; [exact Hrun|].
  exact (proj2 (proj2 (proj2
    (size_accounting 14 [OpInsert 9; OpDelete; OpInsert 3]
       (heap_of [7] 15 14) (heap_of [9; 3] 15 14) Hwf Hrun)))).
Defined.

(** C8.  The index helpers compute the structural mapping: for every
    index [i > 0] the parent is [floor((i - 1) / 2)], and for every
    index [i] whose children are representable in [size_t] the left
    child is [2i + 1] and the right child [2i + 2]. *)
Theorem index_arithmetic (i : Z) (Hi : 0 ≤ i < size_t_modulus) :
  (0 < i → GetParentNode i = (i - 1) / 2) ∧
  (2 * i + 2 < size_t_modulus →
   GetLeftChildNode i = 2 * i + 1 ∧ GetRightChildNode i = 2 * i + 2).
Proof.
  split.
  - intros Hpos. apply GetParentNode_pos. lia.
  - intros Hfit. split.
    + apply GetLeftChildNode_fits; lia.
    + apply GetRightChildNode_fits; lia.
Qed.

Lemma index_arithmetic_witness :
  0 ≤ 5 < size_t_modulus ∧
  (0 < 5 → GetParentNode 5 = (5 - 1) / 2) ∧
  (2 * 5 + 2 < size_t_modulus →
   GetLeftChildNode 5 = 2 * 5 + 1 ∧ GetRightChildNode 5 = 2 * 5 + 2).
Proof.
  assert (Hi : 0 ≤ 5 < size_t_modulus) by (vm_compute; split; congruence).
  split; [exact Hi|].
  exact (index_arithmetic 5 Hi).
Defined.

(** C9.  The first [Insert] into an empty heap.  [PercolateUp 0]
    computes the parent index [(0 - 1) / 2 = 2^63 - 1] in [size_t]; the
    guard [parent > 0] holds; no storage that can exist has a cell at
    that index, so the read [_cache[parent]] is out of bounds, and so
    [Insert] ends. *)
Theorem first_Insert_out_of_bounds (x : Z) (h : MinHeap)
    (Hwf : wf h) (Hempty : _size h = 0) :
  GetParentNode 0 = 2 ^ 63 - 1 ∧
  (0 <? GetParentNode 0) = true ∧
  cells (_cache h) !! Z.to_nat (GetParentNode 0) = None ∧
  (∀ b : block,
     live b = true → Z.of_nat (length (cells b)) ≤ max_cells →
     cells b !! Z.to_nat (GetParentNode 0) = None ∧
     load b (GetParentNode 0) = Fault OutOfBounds) ∧
  (∀ fuel, PercolateUp (S fuel) 0 h = Fault OutOfBounds) ∧
  Insert x h = Fault OutOfBounds.
Proof.
  assert (Hmc : max_cells = 2 ^ 61) by reflexivity.
  assert (Hfar : ∀ b : block,
             Z.of_nat (length (cells b)) ≤ max_cells →
             cells b !! Z.to_nat (GetParentNode 0) = None).
  { intros b Hb. apply lookup_ge_None. rewrite GetParentNode_root. lia. }
  split; [reflexivity|]. split; [reflexivity|].
  split; [apply Hfar, Hwf|]. split; [|split].
  - intros b Hlive Hb. split; [by apply Hfar|].
    apply load_out_of_bounds; [done|]. rewrite GetParentNode_root. lia.
  - intros fuel. apply PercolateUp_root_faults; apply Hwf.
  - by apply Insert_empty_faults.
Qed.

Lemma first_Insert_out_of_bounds_witness :
  wf (heap_of [] 15 14) ∧ _size (heap_of [] 15 14) = 0 ∧
  MinHeap_ctor 14 = Ok (heap_of [] 15 14) ∧
  Insert 1 (heap_of [] 15 14) = Fault OutOfBounds.
Proof.
  assert (Hwf : wf (heap_of [] 15 14))
    by (apply heap_of_wf; [simpl; lia | vm_compute; discriminate]).
  split; [exact Hwf|]. split; [reflexivity|]. split; [reflexivity|].
  exact (proj2 (proj2 (proj2 (proj2 (proj2
    (first_Insert_out_of_bounds 1 (heap_of [] 15 14) Hwf eq_refl)))))).
Defined.

(** C10.  An [Insert] into a heap with [_size >= 1] that does not resize
    leaves the cell at index 0 as it was: [PercolateUp] swaps only with
    parents of positive index.  With a free cell in the storage such an
    [Insert] does return. *)
Theorem Insert_leaves_root_in_place (x : Z) (h : MinHeap)
    (Hwf : wf h) (Hne : 1 ≤ _size h)
    (Hno_resize : size_t_wrap (_size h + 1) ≠ _capacity h) :
  (_size h < Z.of_nat (length (cells (_cache h))) →
   ∃ h', Insert x h = Ok (tt, h')) ∧
  (∀ h', Insert x h = Ok (tt, h') →
         is_Some (value_at h 0) ∧ value_at h' 0 = value_at h 0).
Proof.
  split.
  - intros Hroom.
    destruct (Insert_ok x h Hwf Hne Hroom Hno_resize) as (h' & Hok & _).
    by exists h'.
  - intros h' Hins.
    apply Insert_inv in Hins as (_ & _ & _ & _ & Hroot); [|done].
    destruct (wf_lookup h 0 Hwf ltac:(lia)) as [root Hcell].
    change (Z.to_nat 0) with 0%nat in Hcell.
    change (value_at h' 0) with (mjoin (cells (_cache h') !! 0%nat)).
    change (value_at h 0) with (mjoin (cells (_cache h) !! 0%nat)).
    rewrite Hroot, Hcell. simpl. eauto.
Qed.

Lemma Insert_leaves_root_in_place_witness :
  wf (heap_of [7; 3] 15 14) ∧ 1 ≤ _size (heap_of [7; 3] 15 14) ∧
  size_t_wrap (_size (heap_of [7; 3] 15 14) + 1)
  ≠ _capacity (heap_of [7; 3] 15 14) ∧
  Insert 9 (heap_of [7; 3] 15 14) = Ok (tt, heap_of [7; 3; 9] 15 14) ∧
  value_at (heap_of [7; 3; 9] 15 14) 0 = value_at (heap_of [7; 3] 15 14) 0.
Proof.
  assert (Hwf : wf (heap_of [7; 3] 15 14))
    by (apply heap_of_wf; [simpl; lia | vm_compute; discriminate]).
  assert (Hne : 1 ≤ _size (heap_of [7; 3] 15 14)) by (simpl; lia).
  assert (Hno_resize : size_t_wrap (_size (heap_of [7; 3] 15 14) + 1)
                       ≠ _capacity (heap_of [7; 3] 15 14))
    by (vm_compute; discriminate).
  assert (Hins : Insert 9 (heap_of [7; 3] 15 14)
                 = Ok (tt, heap_of [7; 3; 9] 15 14))
    by (vm_compute; reflexivity).
  split; [exact Hwf|]. split; [exact Hne|]. split; [exact Hno_resize|].
  split; [exact Hins|].
  exact (proj2 (proj2 (Insert_leaves_root_in_place 9 (heap_of [7; 3] 15 14)
                         Hwf Hne Hno_resize) _ Hins)).
Defined.

(** * Further properties of the code *)

(** ** Index helpers: round trips *)

(** X1.  Going to either child and back to the parent returns to the
    node, and the children lie strictly after the node, left before
    right, whenever the children are representable in [size_t]. *)
Theorem child_then_parent (i : Z)
    (Hi : 0 ≤ i) (Hfit : 2 * i + 2 < size_t_modulus) :
  GetParentNode (GetLeftChildNode i) = i ∧
  GetParentNode (GetRightChildNode i) = i ∧
  i < GetLeftChildNode i < GetRightChildNode i.
Proof.
  rewrite GetLeftChildNode_fits, GetRightChildNode_fits by lia.
  rewrite !GetParentNode_pos by lia.
  repeat split; try lia; Z.div_mod_to_equations; lia.
Qed.

Lemma child_then_parent_witness :
  0 ≤ 6 ∧ 2 * 6 + 2 < size_t_modulus ∧
  GetParentNode (GetLeftChildNode 6) = 6 ∧
  GetParentNode (GetRightChildNode 6) = 6 ∧
  6 < GetLeftChildNode 6 < GetRightChildNode 6.
Proof.
  assert (Hi : 0 ≤ 6) by lia.
  assert (Hfit : 2 * 6 + 2 < size_t_modulus) by (vm_compute; reflexivity).
  split; [exact Hi|]. split; [exact Hfit|].
  exact (child_then_parent 6 Hi Hfit).
Defined.

(** X2.  Every index other than the root has a strictly smaller parent
    and is one of that parent's two children: the left one when the
    index is odd, the right one when it is even. *)
Theorem parent_then_child (i : Z) (Hi : 0 < i < size_t_modulus) :
  0 ≤ GetParentNode i < i ∧
  (i mod 2 = 1 → GetLeftChildNode (GetParentNode i) = i) ∧
  (i mod 2 = 0 → GetRightChildNode (GetParentNode i) = i).
Proof.
  assert (Hmod : size_t_modulus = 2 ^ 64) by reflexivity.
  rewrite GetParentNode_pos by lia.
  assert (Hp : 0 ≤ (i - 1) / 2 ∧ 2 * ((i - 1) / 2) ≤ i - 1 ≤ 2 * ((i - 1) / 2) + 1)
    by (Z.div_mod_to_equations; lia).
  split; [lia|]. split; intros Hpar.
  - assert (Hodd : 2 * ((i - 1) / 2) + 1 = i)
      by (Z.div_mod_to_equations; lia).
    unfold GetLeftChildNode. rewrite Hodd. apply size_t_wrap_small. lia.
  - assert (Heven : 2 * ((i - 1) / 2) + 2 = i)
      by (Z.div_mod_to_equations; lia).
    unfold GetRightChildNode. rewrite Heven. apply size_t_wrap_small. lia.
Qed.

Lemma parent_then_child_witness :
  0 < 13 < size_t_modulus ∧
  0 ≤ GetParentNode 13 < 13 ∧
  (13 mod 2 = 1 → GetLeftChildNode (GetParentNode 13) = 13) ∧
  (13 mod 2 = 0 → GetRightChildNode (GetParentNode 13) = 13).
Proof.
  assert (Hi : 0 < 13 < size_t_modulus) by (vm_compute; split; reflexivity).
  split; [exact Hi|].
  exact (parent_then_child 13 Hi).
Defined.

(** ** PercolateDown: where it works *)

Lemma PercolateDown_step_frame (fuel : nat) (parent c : Z) (h : MinHeap) :
  (∀ h1, wf h1 → _size h1 = _size h →
         ∃ h', PercolateDown fuel c h1 = Ok (tt, h') ∧ rearranged h1 h' ∧
               ∀ k : nat, Z.of_nat k < (c + 1) / 2 →
                          cells (_cache h') !! k = cells (_cache h1) !! k) →
  wf h → 0 ≤ parent → 2 * parent + 1 ≤ c → c < _size h →
  ∃ h', (swap parent c ;; PercolateDown fuel c) h = Ok (tt, h') ∧
        rearranged h h' ∧
        ∀ k : nat, Z.of_nat k < parent →
                   cells (_cache h') !! k = cells (_cache h) !! k.
Proof.
  intros IH Hwf Hp Hpc Hc.
  destruct (swap_rearranged h parent c Hwf ltac:(lia) ltac:(lia))
    as (h1 & Hswap & Hre1 & _ & Hother).
  destruct (IH h1) as (h' & Hrec & Hre2 & Hframe).
  { by eapply rearranged_wf. }
  { apply Hre1. }
  exists h'. split; [by rewrite (bind_ok _ _ _ _ _ Hswap)|].
  split; [by eapply rearranged_trans|].
  intros k Hk. rewrite Hframe.
  - apply Hother; lia.
  - Z.div_mod_to_equations. lia.
Qed.

Lemma PercolateDown_frame (fuel : nat) :
  ∀ (index : Z) (h : MinHeap),
    wf h → 0 ≤ index ≤ _size h → _size h < Z.of_nat fuel + index →
    ∃ h', PercolateDown fuel index h = Ok (tt, h') ∧ rearranged h h' ∧
          ∀ k : nat, Z.of_nat k < (index + 1) / 2 →
                     cells (_cache h') !! k = cells (_cache h) !! k.
Proof.
  induction fuel as [|fuel IH]; intros index h Hwf Hindex Hfuel; [lia|].
  pose proof (wf_cells h Hwf) as Hcells. pose proof (wf_size h Hwf) as Hsize.
  assert (Hmc : max_cells = 2 ^ 61) by reflexivity.
  assert (Hmod : size_t_modulus = 2 ^ 64) by reflexivity.
  rewrite PercolateDown_unfold. unfold bind at 1, get_size at 1.
  rewrite GetLeftChildNode_fits, GetRightChildNode_fits by lia.
  destruct ((2 * index + 1 <? _size h) && (2 * index + 2 <? _size h))
    eqn:Hguard.
  2:{ exists h. split; [done|]. split; [apply rearranged_refl | done]. }
  apply andb_true_iff in Hguard as [_ Hright%Z.ltb_lt].
  rewrite PercolateDown_parent by lia.
  set (parent := (index + 1) / 2).
  assert (Hparent : index ≤ 2 * parent ≤ index + 1).
  { unfold parent. Z.div_mod_to_equations. lia. }
  rewrite GetLeftChildNode_fits, GetRightChildNode_fits by lia.
  destruct (wf_lookup h (2 * parent + 1) Hwf ltac:(lia)) as [l Hl].
  destruct (wf_lookup h (2 * parent + 2) Hwf ltac:(lia)) as [r Hr].
  pose proof (read_ok h (2 * parent + 1) l (wf_live h Hwf) ltac:(lia) Hl)
    as Hreadl.
  pose proof (read_ok h (2 * parent + 2) r (wf_live h Hwf) ltac:(lia) Hr)
    as Hreadr.
  cbv zeta. rewrite (bind_ok _ _ _ _ _ Hreadl).
  assert (Hstep : ∀ c, 2 * parent + 1 ≤ c ≤ 2 * parent + 2 →
            ∃ h', (swap parent c ;; PercolateDown fuel c) h = Ok (tt, h') ∧
                  rearranged h h' ∧
                  ∀ k : nat, Z.of_nat k < parent →
                             cells (_cache h') !! k = cells (_cache h) !! k).
  { intros c Hc. apply PercolateDown_step_frame; [|done|lia|lia|lia].
    intros h1 Hwf1 Hsz. apply IH; [done | lia | lia]. }
  destruct (l >? -1) eqn:Hlpos.
  - assert (Hboth : (r0 <- read (2 * parent + 2) ;; ret (r0 >? -1)) h
                     = Ok (r >? -1, h))
      by (by rewrite (bind_ok _ _ _ _ _ Hreadr)).
    rewrite (bind_ok _ _ _ _ _ Hboth).
    destruct (r >? -1).
    + rewrite (bind_ok _ _ _ _ _ Hreadr).
      destruct (to_unsigned_int (std_max l r) =? to_unsigned_int l);
        apply Hstep; lia.
    + destruct (negb (l =? -1)); apply Hstep; lia.
  - unfold bind at 1, ret at 1.
    destruct (negb (l =? -1)); apply Hstep; lia.
Qed.

(** X3.  On a well-formed heap [PercolateDown index] returns within a
    budget of [_size - index + 1] calls.  It loses and invents nothing:
    the cells below [_size] are permuted.  It works only between index
    [(index + 1) / 2] and [_size]: every cell before and every cell from
    [_size] on is left as it was, and so are the fields. *)
Theorem PercolateDown_stays_inside (fuel : nat) (index : Z) (h : MinHeap)
    (Hwf : wf h) (Hindex : 0 ≤ index ≤ _size h)
    (Hfuel : _size h < Z.of_nat fuel + index) :
  ∃ h', PercolateDown fuel index h = Ok (tt, h') ∧
        wf h' ∧
        _size h' = _size h ∧ _capacity h' = _capacity h ∧
        contents h' ≡ₚ contents h ∧
        (∀ k : nat, Z.of_nat k < (index + 1) / 2 ∨ _size h ≤ Z.of_nat k →
                    cells (_cache h') !! k = cells (_cache h) !! k).
Proof.
  destruct (PercolateDown_frame fuel index h Hwf Hindex Hfuel)
    as (h' & Hrun & Hre & Hframe).
  exists h'. split; [done|]. split; [by eapply rearranged_wf|].
  split; [apply Hre|]. split; [apply Hre|]. split; [apply Hre|].
  intros k [Hk|Hk]; [by apply Hframe | by apply rearranged_suffix_lookup].
Qed.

Lemma PercolateDown_stays_inside_witness :
  wf (heap_of [9; 2; 0; 1; 1; 8; 8] 15 14) ∧
  0 ≤ 2 ≤ _size (heap_of [9; 2; 0; 1; 1; 8; 8] 15 14) ∧
  _size (heap_of [9; 2; 0; 1; 1; 8; 8] 15 14) < Z.of_nat 6 + 2 ∧
  ∃ h', PercolateDown 6 2 (heap_of [9; 2; 0; 1; 1; 8; 8] 15 14) = Ok (tt, h') ∧
        wf h' ∧
        _size h' = _size (heap_of [9; 2; 0; 1; 1; 8; 8] 15 14) ∧
        _capacity h' = _capacity (heap_of [9; 2; 0; 1; 1; 8; 8] 15 14) ∧
        contents h' ≡ₚ contents (heap_of [9; 2; 0; 1; 1; 8; 8] 15 14) ∧
        (∀ k : nat,
           Z.of_nat k < (2 + 1) / 2 ∨
           _size (heap_of [9; 2; 0; 1; 1; 8; 8] 15 14) ≤ Z.of_nat k →
           cells (_cache h') !! k
           = cells (_cache (heap_of [9; 2; 0; 1; 1; 8; 8] 15 14)) !! k).
Proof.
  assert (Hwf : wf (heap_of [9; 2; 0; 1; 1; 8; 8] 15 14))
    by (apply heap_of_wf; [simpl; lia | vm_compute; discriminate]).
  assert (Hindex : 0 ≤ 2 ≤ _size (heap_of [9; 2; 0; 1; 1; 8; 8] 15 14))
    by (simpl; lia).
  assert (Hfuel : _size (heap_of [9; 2; 0; 1; 1; 8; 8] 15 14) < Z.of_nat 6 + 2)
    by (simpl; lia).
  split; [exact Hwf|]. split; [exact Hindex|]. split; [exact Hfuel|].
  exact (PercolateDown_stays_inside 6 2 _ Hwf Hindex Hfuel).
Defined.

(** ** Insert and Delete: what a returning call changes *)

Lemma appended_contents (x : Z) (h : MinHeap) :
  wf h → _size h < Z.of_nat (length (cells (_cache h))) →
  contents (appended x h) = contents h ++ [Some x].
Proof.
  intros Hwf Hroom. pose proof (wf_size h Hwf) as Hsize.
  unfold contents. simpl.
  replace (Z.to_nat (_size h + 1)) with (S (Z.to_nat (_size h))) by lia.
  erewrite take_S_r; [|apply list_lookup_insert_eq; lia].
  by rewrite take_insert_ge by lia.
Qed.

(** X4.  A returning [Insert] adds exactly [x]: the logical heap becomes
    a permutation of the old elements and [x], [_size] grows by one,
    [_capacity] and the number of allocated cells stay, the cells past
    the new element are untouched, and [_size] never reaches
    [_capacity]. *)
Theorem Insert_adds_exactly_x (x : Z) (h h' : MinHeap)
    (Hwf : wf h) (Hins : Insert x h = Ok (tt, h')) :
  wf h' ∧
  _size h' = _size h + 1 ∧
  _capacity h' = _capacity h ∧
  length (cells (_cache h')) = length (cells (_cache h)) ∧
  contents h' ≡ₚ contents h ++ [Some x] ∧
  (∀ k : nat, _size h < Z.of_nat k →
              cells (_cache h') !! k = cells (_cache h) !! k) ∧
  _size h' ≠ _capacity h'.
Proof.
  pose proof (wf_cells h Hwf) as Hcells. pose proof (wf_size h Hwf) as Hsize.
  assert (Hmc : max_cells = 2 ^ 61) by reflexivity.
  assert (Hmod : size_t_modulus = 2 ^ 64) by reflexivity.
  apply Insert_inv in Hins as (Hne & Hroom & Hcap & Hre & _); [|done].
  pose proof (appended_wf x h Hwf Hroom) as Hwfa.
  rewrite size_t_wrap_small in Hcap by lia.
  split; [by eapply rearranged_wf|].
  split; [by rewrite (re_size _ _ Hre)|].
  split; [by rewrite (re_capacity _ _ Hre)|].
  split; [rewrite (rearranged_length _ _ Hre); simpl; apply length_insert|].
  split; [rewrite (re_prefix _ _ Hre); by rewrite appended_contents|].
  split.
  - intros k Hk. rewrite (rearranged_suffix_lookup _ _ k Hre) by (simpl; lia).
    simpl. apply list_lookup_insert_ne. lia.
  - rewrite (re_size _ _ Hre), (re_capacity _ _ Hre). simpl. done.
Qed.

Lemma Insert_adds_exactly_x_witness :
  wf (heap_of [7; 3] 15 14) ∧
  Insert 9 (heap_of [7; 3] 15 14) = Ok (tt, heap_of [7; 3; 9] 15 14) ∧
  wf (heap_of [7; 3; 9] 15 14) ∧
  _size (heap_of [7; 3; 9] 15 14) = _size (heap_of [7; 3] 15 14) + 1 ∧
  _capacity (heap_of [7; 3; 9] 15 14) = _capacity (heap_of [7; 3] 15 14) ∧
  length (cells (_cache (heap_of [7; 3; 9] 15 14)))
  = length (cells (_cache (heap_of [7; 3] 15 14))) ∧
  contents (heap_of [7; 3; 9] 15 14)
  ≡ₚ contents (heap_of [7; 3] 15 14) ++ [Some 9] ∧
  (∀ k : nat, _size (heap_of [7; 3] 15 14) < Z.of_nat k →
              cells (_cache (heap_of [7; 3; 9] 15 14)) !! k
              = cells (_cache (heap_of [7; 3] 15 14)) !! k) ∧
  _size (heap_of [7; 3; 9] 15 14) ≠ _capacity (heap_of [7; 3; 9] 15 14).
Proof.
  assert (Hwf : wf (heap_of [7; 3] 15 14))
    by (apply heap_of_wf; [simpl; lia | vm_compute; discriminate]).
  assert (Hins : Insert 9 (heap_of [7; 3] 15 14)
                 = Ok (tt, heap_of [7; 3; 9] 15 14))
    by (vm_compute; reflexivity).
  split; [exact Hwf|]. split; [exact Hins|].
  exact (Insert_adds_exactly_x 9 _ _ Hwf Hins).
Defined.

(** X5.  A returning [Delete] keeps the storage: [_capacity] and the
    number of allocated cells are unchanged, nothing is released, and
    every cell from the old [_size] on is untouched. *)
Theorem Delete_keeps_storage (h h' : MinHeap)
    (Hwf : wf h) (Hdel : Delete h = Ok (tt, h')) :
  _capacity h' = _capacity h ∧
  live (_cache h') = true ∧
  length (cells (_cache h')) = length (cells (_cache h)) ∧
  (∀ k : nat, _size h ≤ Z.of_nat k →
              cells (_cache h') !! k = cells (_cache h) !! k).
Proof.
  pose proof (wf_size h Hwf) as Hsize.
  destruct (decide (_size h = 0)) as [Hempty|Hne].
  { destruct (Delete_empty_faults h Hwf Hempty); congruence. }
  destruct (Delete_ok h Hwf ltac:(lia))
    as (h'' & Hok & Hwf' & _ & Hcap & Hlen & _ & _ & Hsuf).
  rewrite Hok in Hdel. injection Hdel as ->.
  split; [done|]. split; [apply Hwf'|]. split; [done|].
  intros k Hk.
  replace k with (Z.to_nat (_size h) + (k - Z.to_nat (_size h)))%nat by lia.
  rewrite <-!lookup_drop. by rewrite Hsuf.
Qed.

Lemma Delete_keeps_storage_witness :
  wf (heap_of [5; 4; 3] 15 14) ∧
  ∃ h', Delete (heap_of [5; 4; 3] 15 14) = Ok (tt, h') ∧
        _capacity h' = _capacity (heap_of [5; 4; 3] 15 14) ∧
        live (_cache h') = true ∧
        length (cells (_cache h'))
        = length (cells (_cache (heap_of [5; 4; 3] 15 14))) ∧
        (∀ k : nat, _size (heap_of [5; 4; 3] 15 14) ≤ Z.of_nat k →
                    cells (_cache h') !! k
                    = cells (_cache (heap_of [5; 4; 3] 15 14)) !! k).
Proof.
  assert (Hwf : wf (heap_of [5; 4; 3] 15 14))
    by (apply heap_of_wf; [simpl; lia | vm_compute; discriminate]).
  split; [exact Hwf|].
  eexists. split; [vm_compute; reflexivity|].
  apply (Delete_keeps_storage (heap_of [5; 4; 3] 15 14) _ Hwf).
  vm_compute. reflexivity.
Defined.

Lemma perform_keeps_storage (o : operation) (h h' : MinHeap) :
  wf h → perform o h = Ok (tt, h') →
  _capacity h' = _capacity h ∧
  length (cells (_cache h')) = length (cells (_cache h)).
Proof.
  intros Hwf Hrun. destruct o as [x|]; simpl in Hrun.
  - pose proof (wf_size h Hwf) as Hsize.
    apply Insert_inv in Hrun as (_ & Hroom & _ & Hre & _); [|done].
    split; [by rewrite (re_capacity _ _ Hre)|].
    rewrite (rearranged_length _ _ Hre). simpl. apply length_insert.
  - destruct (decide (_size h = 0)) as [Hempty|Hne].
    { destruct (Delete_empty_faults h Hwf Hempty); congruence. }
    pose proof (wf_size h Hwf) as Hsize.
    destruct (Delete_ok h Hwf ltac:(lia))
      as (h'' & Hok & _ & _ & Hcap & Hlen & _).
    rewrite Hok in Hrun. injection Hrun as ->. done.
Qed.

(** X6.  The heap never grows.  Whatever sequence of [Insert]s and
    [Delete]s returns, [_capacity] and the number of allocated cells are
    those of the start, so the heap never holds more elements than cells
    were allocated at the start. *)
Theorem run_keeps_storage (ops : list operation) (h h' : MinHeap)
    (Hwf : wf h) (Hrun : run ops h = Ok (tt, h')) :
  _capacity h' = _capacity h ∧
  length (cells (_cache h')) = length (cells (_cache h)) ∧
  _size h' ≤ Z.of_nat (length (cells (_cache h))).
Proof.
  revert h Hwf Hrun.
  induction ops as [|o ops IH]; intros h Hwf Hrun.
  - simpl in Hrun. injection Hrun as <-.
    split; [done|]. split; [done|]. apply Hwf.
  - simpl run in Hrun. apply bind_inv in Hrun as ([] & h1 & Hstep & Hrest).
    pose proof (perform_keeps_storage o h h1 Hwf Hstep) as [Hcap Hlen].
    apply perform_size in Hstep as [Hwf1 _]; [|done].
    destruct (IH h1 Hwf1 Hrest) as (Hcap' & Hlen' & Hsz').
    split; [congruence|]. split; [congruence|]. by rewrite <-Hlen.
Qed.

Lemma run_keeps_storage_witness :
  wf (heap_of [7] 15 14) ∧
  run [OpInsert 9; OpDelete; OpInsert 3] (heap_of [7] 15 14)
  = Ok (tt, heap_of [9; 3] 15 14) ∧
  _capacity (heap_of [9; 3] 15 14) = _capacity (heap_of [7] 15 14) ∧
  length (cells (_cache (heap_of [9; 3] 15 14)))
  = length (cells (_cache (heap_of [7] 15 14))) ∧
  _size (heap_of [9; 3] 15 14)
  ≤ Z.of_nat (length (cells (_cache (heap_of [7] 15 14)))).
Proof.
  assert (Hwf : wf (heap_of [7] 15 14))
    by (apply heap_of_wf; [simpl; lia | vm_compute; discriminate]).
  assert (Hrun : run [OpInsert 9; OpDelete; OpInsert 3] (heap_of [7] 15 14)
                 = Ok (tt, heap_of [9; 3] 15 14))
    by (vm_compute; reflexivity).
  split; [exact Hwf|]. split; [exact Hrun|].
  exact (run_keeps_storage _ _ _ Hwf Hrun).
Defined.

(** ** A freshly constructed heap *)

(** X7.  No operation can be the first one.  On the heap the constructor
    returns, for any capacity an array can have, a sequence that starts
    with [Insert] ends in an out-of-bounds access and a sequence that
    starts with [Delete] ends in a read of the never-written cell 0;
    only the empty sequence returns. *)
Theorem fresh_heap_first_operation (capacity : Z) (h0 : MinHeap)
    (ops : list operation)
    (Hcap : 0 ≤ capacity < max_cells)
    (Hctor : MinHeap_ctor capacity = Ok h0) :
  match ops with
  | [] => run ops h0 = Ok (tt, h0)
  | OpInsert _ :: _ => run ops h0 = Fault OutOfBounds
  | OpDelete :: _ => run ops h0 = Fault Indeterminate
  end.
Proof.
  pose proof (MinHeap_ctor_wf capacity h0 Hcap Hctor) as Hwf.
  assert (Hmc : max_cells = 2 ^ 61) by reflexivity.
  assert (Hmod : size_t_modulus = 2 ^ 64) by reflexivity.
  injection Hctor as <-.
  destruct ops as [|[x|] ops]; [done | |].
  - simpl run. apply bind_fault. simpl perform.
    by apply Insert_empty_faults.
  - simpl run. apply bind_fault. simpl perform.
    rewrite Delete_unfold. apply bind_fault. unfold swap. apply bind_fault.
    apply read_indeterminate; [done | lia |]. simpl.
    apply lookup_replicate_2. rewrite size_t_wrap_small by lia. lia.
Qed.

Lemma fresh_heap_first_operation_witness :
  0 ≤ 14 < max_cells ∧
  MinHeap_ctor 14 = Ok (heap_of [] 15 14) ∧
  run [OpInsert 1; OpInsert 2; OpDelete] (heap_of [] 15 14)
  = Fault OutOfBounds.
Proof.
  assert (Hcap : 0 ≤ 14 < max_cells) by (vm_compute; split; congruence).
  split; [exact Hcap|]. split; [reflexivity|].
  exact (fresh_heap_first_operation 14 (heap_of [] 15 14)
           [OpInsert 1; OpInsert 2; OpDelete] Hcap eq_refl).
Defined.

(** ** Print *)

(** X8.  [Print] only reads and only appends.  On a well-formed heap
    there is one list of lines, numbered [0 .. _size - 1] and carrying
    the logical heap in array order, that every call appends to whatever
    the stream held, leaving the object as it was; printing again
    appends the same lines again. *)
Theorem Print_appends (h : MinHeap) (Hwf : wf h) :
  ∃ lines : ostream,
    lines.*1 = seqZ 0 (_size h) ∧
    Some <$> lines.*2 = contents h ∧
    (∀ out, Print out h = Ok (out ++ lines, h)) ∧
    (∀ out, (out1 <- Print out ;; Print out1) h
            = Ok (out ++ lines ++ lines, h)).
Proof.
  pose proof (wf_size h Hwf) as Hsize.
  destruct (Print_lines h [] Hwf) as (vals & Hvals & _).
  assert (Hlen : Z.of_nat (length vals) = _size h).
  { apply (f_equal length) in Hvals.
    unfold contents in Hvals. rewrite length_take, length_fmap in Hvals. lia. }
  assert (Hall : ∀ out, Print out h
                        = Ok (out ++ zip (seqZ 0 (_size h)) vals, h)).
  { intros out. destruct (Print_lines h out Hwf) as (vals' & Hvals' & Hp).
    rewrite Hvals in Hvals'. apply (inj (fmap Some)) in Hvals'.
    by subst vals'. }
  exists (zip (seqZ 0 (_size h)) vals).
  split; [apply fst_zip; rewrite length_seqZ; lia|].
  split; [rewrite snd_zip by (rewrite length_seqZ; lia); done|].
  split; [done|].
  intros out. rewrite (bind_ok _ _ _ _ _ (Hall out)).
  rewrite Hall. by rewrite <-app_assoc.
Qed.

Lemma Print_appends_witness :
  wf (heap_of [7; 9; 3] 15 14) ∧
  ∃ lines : ostream,
    lines.*1 = seqZ 0 (_size (heap_of [7; 9; 3] 15 14)) ∧
    Some <$> lines.*2 = contents (heap_of [7; 9; 3] 15 14) ∧
    (∀ out, Print out (heap_of [7; 9; 3] 15 14)
            = Ok (out ++ lines, heap_of [7; 9; 3] 15 14)) ∧
    (∀ out, (out1 <- Print out ;; Print out1) (heap_of [7; 9; 3] 15 14)
            = Ok (out ++ lines ++ lines, heap_of [7; 9; 3] 15 14)).
Proof.
  assert (Hwf : wf (heap_of [7; 9; 3] 15 14))
    by (apply heap_of_wf; [simpl; lia | vm_compute; discriminate]).
  split; [exact Hwf|].
  exact (Print_appends (heap_of [7; 9; 3] 15 14) Hwf).
Defined.

(** ** Values under swaps *)

Lemma value_at_Some (h : MinHeap) (i v : Z) :
  value_at h i = Some v ↔
  0 ≤ i ∧ cells (_cache h) !! Z.to_nat i = Some (Some v).
Proof.
  unfold value_at. destruct (0 <=? i) eqn:Hle.
  - apply Z.leb_le in Hle.
    destruct (cells (_cache h) !! Z.to_nat i) as [[w|]|]; simpl;
      (split; [intros Hv; simplify_eq; try (split; [lia | done])
              | intros [_ Hv]; by simplify_eq]).
  - apply Z.leb_gt in Hle. split; [done | lia].
Qed.

Lemma wf_value_at (h : MinHeap) (i : Z) :
  wf h → 0 ≤ i < _size h → ∃ v, value_at h i = Some v.
Proof.
  intros Hwf Hi. destruct (wf_lookup h i Hwf Hi) as [v Hv].
  exists v. apply value_at_Some. split; [lia | done].
Qed.

Lemma value_at_same_cell (h h' : MinHeap) (i : Z) :
  cells (_cache h') !! Z.to_nat i = cells (_cache h) !! Z.to_nat i →
  value_at h' i = value_at h i.
Proof. intros Hcell. unfold value_at. by rewrite Hcell. Qed.

Lemma ordered_at_true (h : MinHeap) (i : Z) :
  ordered_at h i = true ↔
  ∃ p c, value_at h ((i - 1) / 2) = Some p ∧ value_at h i = Some c ∧ c ≤ p.
Proof.
  unfold ordered_at. split.
  - destruct (value_at h ((i - 1) / 2)) as [p|]; [|done].
    destruct (value_at h i) as [c|]; [|done].
    intros Hle%Z.leb_le. eauto.
  - intros (p & c & -> & -> & Hle). by apply Z.leb_le.
Qed.

(** Exchanging two different cells of the logical heap, in terms of the
    values read back. *)
Lemma swap_values (h : MinHeap) (i j x y : Z) :
  wf h → 0 ≤ i < _size h → 0 ≤ j < _size h → i ≠ j →
  value_at h i = Some x → value_at h j = Some y →
  ∃ h1, swap i j h = Ok (tt, h1) ∧ wf h1 ∧ rearranged h h1 ∧
        value_at h1 i = Some y ∧ value_at h1 j = Some x ∧
        ∀ k, k ≠ i → k ≠ j → value_at h1 k = value_at h k.
Proof.
  intros Hwf Hi Hj Hij Hx%value_at_Some Hy%value_at_Some.
  destruct Hx as [_ Hx], Hy as [_ Hy].
  pose proof (wf_size h Hwf) as Hsize.
  destruct (swap_rearranged h i j Hwf Hi Hj) as (h1 & Hswap & Hre & _ & _).
  pose proof Hswap as Hexplicit.
  rewrite (swap_ok h i j x y (wf_live h Hwf)) in Hexplicit by (done || lia).
  injection Hexplicit as Hh1.
  exists h1. split; [done|]. split; [by eapply rearranged_wf|].
  split; [done|]. subst h1. split; [|split].
  - apply value_at_Some. split; [lia|]. simpl.
    rewrite list_lookup_insert_ne by lia.
    apply list_lookup_insert_eq. lia.
  - apply value_at_Some. split; [lia|]. simpl.
    apply list_lookup_insert_eq. rewrite length_insert. lia.
  - intros k Hki Hkj. unfold value_at. simpl.
    destruct (0 <=? k) eqn:Hk; [|done]. apply Z.leb_le in Hk.
    by rewrite !list_lookup_insert_ne by lia.
Qed.

(** ** Insert: the order it does keep *)

(** After the swap of a sift-up step the invariant holds one level
    higher. *)
Lemma sift_up_inv_step (h h1 : MinHeap) (index vp vc : Z) :
  _size h1 = _size h →
  3 ≤ index < _size h →
  sift_up_inv h index →
  value_at h ((index - 1) / 2) = Some vp → value_at h index = Some vc →
  vp < vc →
  value_at h1 ((index - 1) / 2) = Some vc → value_at h1 index = Some vp →
  (∀ k, k ≠ (index - 1) / 2 → k ≠ index → value_at h1 k = value_at h k) →
  sift_up_inv h1 ((index - 1) / 2).
Proof.
  intros Hsz Hindex [Hothers Hgrand] Hvp Hvc Hlt Hv1p Hv1c Hrest.
  set (parent := (index - 1) / 2) in *.
  assert (Hparent : 2 * parent ≤ index - 1 ≤ 2 * parent + 1)
    by (unfold parent; Z.div_mod_to_equations; lia).
  split.
  - intros i Hi Hip. rewrite Hsz in Hi. apply ordered_at_true.
    assert (Hq : 2 * ((i - 1) / 2) ≤ i - 1 ≤ 2 * ((i - 1) / 2) + 1)
      by (Z.div_mod_to_equations; lia).
    destruct (decide (i = index)) as [->|Hii].
    { exists vc, vp. fold parent. split; [done|]. split; [done | lia]. }
    pose proof (Hothers i Hi Hii) as (p & c & Hp & Hc & Hle)%ordered_at_true.
    rewrite (Hrest i) by done.
    destruct (decide ((i - 1) / 2 = parent)) as [Hsib|Hnsib].
    { rewrite Hsib in Hp |- *. rewrite Hvp in Hp. injection Hp as <-.
      exists vc, c. split; [done|]. split; [done | lia]. }
    destruct (decide ((i - 1) / 2 = index)) as [Hchild|Hnchild].
    { rewrite Hchild. exists vp, c. split; [done|]. split; [done|].
      apply (Hgrand i vp c); [lia | lia | done | done | done]. }
    rewrite (Hrest ((i - 1) / 2)) by done.
    exists p, c. done.
  - intros c g x Hp3 Hc Hcp Hg Hx. rewrite Hsz in Hc.
    assert (Hpp : 2 * ((parent - 1) / 2) ≤ parent - 1)
      by (Z.div_mod_to_equations; lia).
    rewrite (Hrest ((parent - 1) / 2)) in Hg by lia.
    pose proof (Hothers parent ltac:(lia) ltac:(lia))
      as (g' & p' & Hg' & Hp' & Hle)%ordered_at_true.
    rewrite Hg in Hg'. injection Hg' as <-.
    fold parent in Hvp. rewrite Hvp in Hp'. injection Hp' as <-.
    destruct (decide (c = index)) as [->|Hci].
    { rewrite Hv1c in Hx. injection Hx as <-. done. }
    assert (Hcq : 2 * ((c - 1) / 2) ≤ c - 1)
      by (Z.div_mod_to_equations; lia).
    rewrite (Hrest c) in Hx by lia.
    pose proof (Hothers c ltac:(lia) Hci)
      as (p'' & x' & Hp'' & Hx' & Hle')%ordered_at_true.
    rewrite Hcp in Hp''. fold parent in Hp''.
    rewrite Hvp in Hp''. injection Hp'' as <-.
    rewrite Hx in Hx'. injection Hx' as <-. lia.
Qed.

(** A sift-up that starts from the invariant ends with every edge below
    the root in order; the nodes at indices 1 and 2 keep their element
    or receive the one that was carried up. *)
Lemma PercolateUp_orders (fuel : nat) :
  ∀ (index : Z) (h : MinHeap),
    wf h → 1 ≤ index < _size h → index < 2 ^ Z.of_nat fuel →
    sift_up_inv h index →
    ∃ h', PercolateUp fuel index h = Ok (tt, h') ∧
          _size h' = _size h ∧ ordered_below_root h' ∧
          ∀ j, 1 ≤ j ≤ 2 →
               value_at h' j = value_at h j ∨
               value_at h' j = value_at h index.
Proof.
  induction fuel as [|fuel IH]; intros index h Hwf Hindex Hfuel Hinv;
    [simpl in Hfuel; lia|].
  pose proof (wf_cells h Hwf) as Hcells. pose proof (wf_size h Hwf) as Hsize.
  assert (Hmc : max_cells = 2 ^ 61) by reflexivity.
  assert (Hmod : size_t_modulus = 2 ^ 64) by reflexivity.
  rewrite pow2_succ in Hfuel.
  rewrite PercolateUp_unfold. cbv zeta.
  rewrite GetParentNode_pos by lia.
  pose proof Hinv as [Hothers Hgrand].
  assert (Hparent : 2 * ((index - 1) / 2) ≤ index - 1
                    ≤ 2 * ((index - 1) / 2) + 1)
    by (Z.div_mod_to_equations; lia).
  destruct (wf_value_at h index Hwf ltac:(lia)) as [vc Hvc].
  destruct (0 <? (index - 1) / 2) eqn:Hpos.
  2:{ apply Z.ltb_ge in Hpos. unfold bind at 1, ret at 1. exists h.
      split; [done|]. split; [done|]. split.
      - intros i Hi. apply Hothers; lia.
      - intros j Hj. by left. }
  apply Z.ltb_lt in Hpos.
  destruct (wf_value_at h ((index - 1) / 2) Hwf ltac:(lia)) as [vp Hvp].
  pose proof (proj1 (value_at_Some _ _ _) Hvp) as [_ Hcellp].
  pose proof (proj1 (value_at_Some _ _ _) Hvc) as [_ Hcellc].
  pose proof (read_ok h ((index - 1) / 2) vp (wf_live h Hwf) ltac:(lia) Hcellp)
    as Hreadp.
  pose proof (read_ok h index vc (wf_live h Hwf) ltac:(lia) Hcellc) as Hreadc.
  assert (Hcmp : (p0 <- read ((index - 1) / 2) ;;
                  c0 <- read index ;; ret (p0 <? c0)) h
                 = Ok (vp <? vc, h)).
  { rewrite (bind_ok _ _ _ _ _ Hreadp). by rewrite (bind_ok _ _ _ _ _ Hreadc). }
  rewrite (bind_ok _ _ _ _ _ Hcmp).
  destruct (vp <? vc) eqn:Hlt.
  2:{ apply Z.ltb_ge in Hlt. exists h.
      split; [done|]. split; [done|]. split.
      - intros i Hi. destruct (decide (i = index)) as [->|Hii].
        + apply ordered_at_true. exists vp, vc. done.
        + by apply Hothers.
      - intros j Hj. by left. }
  apply Z.ltb_lt in Hlt.
  destruct (swap_values h ((index - 1) / 2) index vp vc Hwf)
    as (h1 & Hswap & Hwf1 & Hre1 & Hv1p & Hv1c & Hrest);
    [lia | lia | lia | done | done |].
  pose proof (re_size _ _ Hre1) as Hsz1.
  destruct (IH ((index - 1) / 2) h1) as (h' & Hrec & Hsz & Hord & Htop).
  { done. }
  { lia. }
  { lia. }
  { apply (sift_up_inv_step h h1 index vp vc); try done. lia. }
  exists h'. split; [by rewrite (bind_ok _ _ _ _ _ Hswap)|].
  split; [lia|]. split; [done|].
  intros j Hj. destruct (Htop j Hj) as [Hsame|Hcarried].
  - destruct (decide (j = (index - 1) / 2)) as [->|Hjp].
    + right. by rewrite Hsame, Hv1p.
    + left. rewrite Hsame. apply Hrest; [done | lia].
  - right. by rewrite Hcarried, Hv1p.
Qed.

Lemma Insert_as_PercolateUp (x : Z) (h : MinHeap) :
  wf h → _size h < Z.of_nat (length (cells (_cache h))) →
  size_t_wrap (_size h + 1) ≠ _capacity h →
  Insert x h = PercolateUp PercolateUp_budget (_size h) (appended x h).
Proof.
  intros Hwf Hroom Hcap.
  pose proof (wf_cells h Hwf) as Hcells. pose proof (wf_size h Hwf) as Hsize.
  assert (Hmc : max_cells = 2 ^ 61) by reflexivity.
  assert (Hmod : size_t_modulus = 2 ^ 64) by reflexivity.
  rewrite Insert_unfold.
  assert (Hsz : _size (grown h) = _size h + 1).
  { simpl. apply size_t_wrap_small. lia. }
  rewrite Hsz.
  replace (_size h + 1 - 1) with (_size h) by lia.
  rewrite (size_t_wrap_small (_size h)) by lia.
  rewrite <-Hsz. simpl (_size (grown h)).
  destruct (size_t_wrap (_size h + 1) =? _capacity h) eqn:Heq;
    [apply Z.eqb_eq in Heq; done|].
  unfold bind at 1, ret at 1.
  assert (Hwrite : write (_size h) x (grown h) = Ok (tt, appended x h)).
  { rewrite write_ok; simpl; [|apply Hwf|lia].
    unfold with_cells, appended. simpl. do 3 f_equal.
    apply size_t_wrap_small. lia. }
  by rewrite (bind_ok _ _ _ _ _ Hwrite).
Qed.

Lemma appended_value_at (x : Z) (h : MinHeap) (i : Z) :
  i ≠ _size h → 0 ≤ _size h → value_at (appended x h) i = value_at h i.
Proof.
  intros Hi Hsize. unfold value_at. simpl.
  destruct (0 <=? i) eqn:Hle; [|done]. apply Z.leb_le in Hle.
  by rewrite list_lookup_insert_ne by lia.
Qed.

Lemma appended_sift_up_inv (x : Z) (h : MinHeap) :
  0 ≤ _size h → ordered_below_root h → sift_up_inv (appended x h) (_size h).
Proof.
  intros Hsize Hord. split.
  - intros i Hi Hne. simpl in Hi.
    assert (Hq : 2 * ((i - 1) / 2) ≤ i - 1) by (Z.div_mod_to_equations; lia).
    unfold ordered_at. rewrite !appended_value_at by lia.
    apply Hord. lia.
  - intros c g v Hk Hc Hcp _ _. simpl in Hc.
    Z.div_mod_to_equations. lia.
Qed.

Lemma appended_value_at_end (x : Z) (h : MinHeap) :
  0 ≤ _size h < Z.of_nat (length (cells (_cache h))) →
  value_at (appended x h) (_size h) = Some x.
Proof.
  intros Hsize. apply value_at_Some. split; [lia|]. simpl.
  apply list_lookup_insert_eq. lia.
Qed.

Lemma heap_order_below_root (h : MinHeap) :
  heap_order h → ordered_below_root h.
Proof. intros Hord i Hi. apply Hord. lia. Qed.

Lemma Insert_order (x : Z) (h h' : MinHeap) :
  wf h → ordered_below_root h → Insert x h = Ok (tt, h') →
  ordered_below_root h' ∧
  (∀ root, heap_order h → value_at h 0 = Some root → x ≤ root →
           heap_order h').
Proof.
  intros Hwf Hord Hins.
  pose proof (wf_cells h Hwf) as Hcells. pose proof (wf_size h Hwf) as Hsize.
  assert (Hmc : max_cells = 2 ^ 61) by reflexivity.
  pose proof Hins as (Hne & Hroom & Hcap & _ & Hroot)%Insert_inv; [|done].
  rewrite Insert_as_PercolateUp in Hins by done.
  destruct (PercolateUp_orders PercolateUp_budget (_size h) (appended x h))
    as (h'' & Hup & Hsz & Hord' & Htop).
  { by apply appended_wf. }
  { simpl. lia. }
  { change (2 ^ Z.of_nat PercolateUp_budget) with (2 ^ 66). lia. }
  { apply appended_sift_up_inv; [lia | done]. }
  rewrite Hup in Hins. injection Hins as ->.
  split; [done|].
  intros root Hfull Hrootv Hx i Hi. rewrite Hsz in Hi. simpl in Hi.
  destruct (decide (3 ≤ i)) as [Hdeep|Htopi].
  { apply Hord'. rewrite Hsz. simpl. lia. }
  apply ordered_at_true.
  assert (Hpar : (i - 1) / 2 = 0) by (Z.div_mod_to_equations; lia).
  rewrite Hpar.
  assert (Hroot' : value_at h' 0 = Some root).
  { rewrite <-Hrootv. by apply value_at_same_cell. }
  assert (Hcases : value_at h' i = Some x ∨
                   (i < _size h ∧ value_at h' i = value_at h i)).
  { destruct (Htop i ltac:(lia)) as [Hsame|Hcarried].
    - destruct (decide (i = _size h)) as [->|Hii].
      + left. rewrite Hsame. apply appended_value_at_end. lia.
      + right. split; [lia|]. rewrite Hsame.
        apply appended_value_at; lia.
    - left. rewrite Hcarried. apply appended_value_at_end. lia. }
  destruct Hcases as [Hvx|[Hlt Hvold]].
  - exists root, x. done.
  - pose proof (Hfull i ltac:(lia)) as (p & c & Hp & Hc & Hle)%ordered_at_true.
    rewrite Hpar, Hrootv in Hp. injection Hp as <-.
    exists root, c. split; [done|]. split; [by rewrite Hvold | done].
Qed.

(** X10.  [Insert] keeps the order it can reach.  If every edge below
    the root was in order, it still is after a returning [Insert]: the
    subtrees under indices 1 and 2 stay heaps.  If moreover the whole
    heap was in order and [x] does not exceed the root, the whole heap is
    in order afterwards. *)
Theorem Insert_keeps_order_below_root (x : Z) (h h' : MinHeap)
    (Hwf : wf h) (Hord : ordered_below_root h)
    (Hins : Insert x h = Ok (tt, h')) :
  ordered_below_root h' ∧
  (∀ root, heap_order h → value_at h 0 = Some root → x ≤ root →
           heap_order h').
Proof. by apply Insert_order. Qed.

Lemma Insert_keeps_order_below_root_witness :
  wf (heap_of [9; 5; 8; 4; 1; 2; 3] 15 14) ∧
  ordered_below_root (heap_of [9; 5; 8; 4; 1; 2; 3] 15 14) ∧
  Insert 6 (heap_of [9; 5; 8; 4; 1; 2; 3] 15 14)
  = Ok (tt, heap_of [9; 6; 8; 5; 1; 2; 3; 4] 15 14) ∧
  ordered_below_root (heap_of [9; 6; 8; 5; 1; 2; 3; 4] 15 14) ∧
  heap_order (heap_of [9; 6; 8; 5; 1; 2; 3; 4] 15 14).
Proof.
  assert (Hwf : wf (heap_of [9; 5; 8; 4; 1; 2; 3] 15 14))
    by (apply heap_of_wf; [simpl; lia | vm_compute; discriminate]).
  assert (Hfull : heap_order (heap_of [9; 5; 8; 4; 1; 2; 3] 15 14))
    by (apply heap_order_b_spec; vm_compute; reflexivity).
  assert (Hord : ordered_below_root (heap_of [9; 5; 8; 4; 1; 2; 3] 15 14))
    by (apply heap_order_below_root; exact Hfull).
  assert (Hins : Insert 6 (heap_of [9; 5; 8; 4; 1; 2; 3] 15 14)
                 = Ok (tt, heap_of [9; 6; 8; 5; 1; 2; 3; 4] 15 14))
    by (vm_compute; reflexivity).
  split; [exact Hwf|]. split; [exact Hord|]. split; [exact Hins|].
  split.
  - exact (proj1 (Insert_keeps_order_below_root 6 _ _ Hwf Hord Hins)).
  - apply (proj2 (Insert_keeps_order_below_root 6 _ _ Hwf Hord Hins) 9).
    + exact Hfull.
    + reflexivity.
    + lia.
Defined.

(** ** Delete: the new root *)

Lemma heap_order_below_children (h : MinHeap) (l r : Z) :
  heap_order h → value_at h 1 = Some l → value_at h 2 = Some r →
  ∀ i v, 1 ≤ i < _size h → value_at h i = Some v → v ≤ Z.max l r.
Proof.
  intros Hord Hl Hr.
  assert (Hall : ∀ (n : nat) (i v : Z),
             1 ≤ i ≤ Z.of_nat n → i < _size h →
             value_at h i = Some v → v ≤ Z.max l r).
  { induction n as [|n IH]; intros i v Hi Hlt Hv; [lia|].
    destruct (decide (i = 1)) as [->|H1].
    { rewrite Hl in Hv. injection Hv as ->. lia. }
    destruct (decide (i = 2)) as [->|H2].
    { rewrite Hr in Hv. injection Hv as ->. lia. }
    pose proof (Hord i ltac:(lia)) as (p & c & Hp & Hc & Hle)%ordered_at_true.
    rewrite Hv in Hc. injection Hc as <-.
    assert (1 ≤ (i - 1) / 2 ≤ Z.of_nat n ∧ (i - 1) / 2 < _size h) as [? ?]
      by (Z.div_mod_to_equations; lia).
    specialize (IH ((i - 1) / 2) p ltac:(done) ltac:(done) Hp). lia. }
  intros i v Hi Hv. apply (Hall (Z.to_nat i) i v); [lia | lia | done].
Qed.

Lemma Delete_as_PercolateDown (h h1 : MinHeap) :
  wf h → 0 < _size h →
  swap 0 (_size h - 1) h = Ok (tt, h1) → _size h1 = _size h →
  Delete h = PercolateDown (S (Z.to_nat (_size h - 1))) 0 (shrunk h1).
Proof.
  intros Hwf Hne Hswap Hsz.
  pose proof (wf_cells h Hwf) as Hcells. pose proof (wf_size h Hwf) as Hsize.
  assert (Hmc : max_cells = 2 ^ 61) by reflexivity.
  assert (Hmod : size_t_modulus = 2 ^ 64) by reflexivity.
  rewrite Delete_unfold.
  rewrite (size_t_wrap_small (_size h - 1)) by lia.
  rewrite (bind_ok _ _ _ _ _ Hswap).
  unfold shrunk. rewrite Hsz. reflexivity.
Qed.

(** The child that the first call of [PercolateDown] selects when both
    children of the root are non-negative [int]s: the larger one, the
    left one on a tie. *)
Lemma max_index_selects_larger (l r : Z) :
  0 ≤ l < 2 ^ 31 → 0 ≤ r < 2 ^ 31 →
  (if to_unsigned_int (std_max l r) =? to_unsigned_int l then 1 else 2)
  = (if l <? r then 2 else 1).
Proof.
  intros Hl Hr. unfold to_unsigned_int, std_max.
  destruct (l <? r) eqn:Hlt.
  - apply Z.ltb_lt in Hlt. rewrite !Z.mod_small by lia.
    destruct (r =? l) eqn:Heq; [apply Z.eqb_eq in Heq; lia | done].
  - by rewrite Z.eqb_refl.
Qed.

(** X11.  On a well-formed heap of four or more elements whose two
    upper children are non-negative [int]s, [Delete] returns with the
    larger of those two children at the root.  If the heap was in order,
    that is the largest element left: no element of the new heap exceeds
    the new root. *)
Theorem Delete_promotes_larger_child (h : MinHeap) (l r : Z)
    (Hwf : wf h) (Hfour : 4 ≤ _size h)
    (Hl : value_at h 1 = Some l) (Hr : value_at h 2 = Some r)
    (Hlrange : 0 ≤ l < 2 ^ 31) (Hrrange : 0 ≤ r < 2 ^ 31) :
  ∃ h', Delete h = Ok (tt, h') ∧
        value_at h' 0 = Some (Z.max l r) ∧
        (heap_order h →
         ∀ i v, 0 ≤ i < _size h' → value_at h' i = Some v → v ≤ Z.max l r).
Proof.
  pose proof (wf_cells h Hwf) as Hcells. pose proof (wf_size h Hwf) as Hsize.
  assert (Hmc : max_cells = 2 ^ 61) by reflexivity.
  assert (Hmod : size_t_modulus = 2 ^ 64) by reflexivity.
  destruct (wf_value_at h 0 Hwf ltac:(lia)) as [x Hx].
  destruct (wf_value_at h (_size h - 1) Hwf ltac:(lia)) as [y Hy].
  destruct (swap_values h 0 (_size h - 1) x y Hwf)
    as (h1 & Hswap & Hwf1 & Hre1 & Hv10 & _ & Hrest1);
    [lia | lia | lia | done | done |].
  pose proof (re_size _ _ Hre1) as Hsz1.
  rewrite (Delete_as_PercolateDown h h1 Hwf ltac:(lia) Hswap Hsz1).
  assert (Hwf2 : wf (shrunk h1)) by (apply shrunk_wf; [done | lia]).
  assert (Hsz2 : _size (shrunk h1) = _size h - 1) by (simpl; lia).
  assert (Hl2 : value_at (shrunk h1) 1 = Some l).
  { change (value_at (shrunk h1) 1) with (value_at h1 1).
    rewrite Hrest1 by lia. done. }
  assert (Hr2 : value_at (shrunk h1) 2 = Some r).
  { change (value_at (shrunk h1) 2) with (value_at h1 2).
    rewrite Hrest1 by lia. done. }
  assert (Hy2 : value_at (shrunk h1) 0 = Some y) by exact Hv10.
  set (h2 := shrunk h1) in *.
  pose proof (proj1 (value_at_Some _ _ _) Hl2) as [_ Hcelll].
  pose proof (proj1 (value_at_Some _ _ _) Hr2) as [_ Hcellr].
  pose proof (read_ok h2 1 l (wf_live h2 Hwf2) ltac:(lia) Hcelll) as Hreadl.
  pose proof (read_ok h2 2 r (wf_live h2 Hwf2) ltac:(lia) Hcellr) as Hreadr.
  rewrite PercolateDown_unfold. unfold bind at 1, get_size at 1.
  change (GetParentNode (size_t_wrap (0 + 2))) with 0.
  change (GetLeftChildNode 0) with 1. change (GetRightChildNode 0) with 2.
  assert ((1 <? _size h2) && (2 <? _size h2) = true) as ->.
  { apply andb_true_iff. split; apply Z.ltb_lt; lia. }
  cbv zeta. rewrite (bind_ok _ _ _ _ _ Hreadl).
  assert ((l >? -1) = true) as -> by (apply Z.gtb_lt; lia).
  assert (Hboth : (r0 <- read 2 ;; ret (r0 >? -1)) h2 = Ok (true, h2)).
  { rewrite (bind_ok _ _ _ _ _ Hreadr). unfold ret.
    assert ((r >? -1) = true) as -> by (apply Z.gtb_lt; lia). done. }
  rewrite (bind_ok _ _ _ _ _ Hboth).
  rewrite (bind_ok _ _ _ _ _ Hreadr).
  rewrite max_index_selects_larger by done.
  set (c := if l <? r then 2 else 1).
  assert (Hc : (c = 1 ∨ c = 2) ∧ value_at h2 c = Some (Z.max l r)).
  { unfold c. destruct (l <? r) eqn:Hlt.
    - apply Z.ltb_lt in Hlt. split; [by right|].
      by rewrite Z.max_r by lia.
    - apply Z.ltb_ge in Hlt. split; [by left|].
      by rewrite Z.max_l by lia. }
  destruct Hc as [Hc12 Hvc].
  destruct (swap_values h2 0 c y (Z.max l r) Hwf2)
    as (h3 & Hswap3 & Hwf3 & Hre3 & Hv30 & _ & _);
    [lia | lia | lia | done | done |].
  pose proof (re_size _ _ Hre3) as Hsz3.
  destruct (PercolateDown_frame (Z.to_nat (_size h - 1)) c h3 Hwf3)
    as (h' & Hdown & Hre' & Hframe); [lia | lia |].
  exists h'. split; [by rewrite (bind_ok _ _ _ _ _ Hswap3)|].
  assert (Hroot' : value_at h' 0 = Some (Z.max l r)).
  { rewrite <-Hv30. apply value_at_same_cell. apply Hframe.
    destruct Hc12 as [-> | ->]; reflexivity. }
  split; [done|].
  intros Hord i v Hi Hv.
  assert (Hsz' : _size h' = _size h - 1).
  { rewrite (re_size _ _ Hre'). lia. }
  assert (Hdel : Delete h = Ok (tt, h')).
  { rewrite (Delete_as_PercolateDown h h1 Hwf ltac:(lia) Hswap Hsz1).
    fold h2. rewrite PercolateDown_unfold. unfold bind at 1, get_size at 1.
    change (GetParentNode (size_t_wrap (0 + 2))) with 0.
    change (GetLeftChildNode 0) with 1. change (GetRightChildNode 0) with 2.
    assert ((1 <? _size h2) && (2 <? _size h2) = true) as ->.
    { apply andb_true_iff. split; apply Z.ltb_lt; lia. }
    cbv zeta. rewrite (bind_ok _ _ _ _ _ Hreadl).
    assert ((l >? -1) = true) as -> by (apply Z.gtb_lt; lia).
    rewrite (bind_ok _ _ _ _ _ Hboth).
    rewrite (bind_ok _ _ _ _ _ Hreadr).
    rewrite max_index_selects_larger by done. fold c.
    by rewrite (bind_ok _ _ _ _ _ Hswap3). }
  destruct (Delete_ok h Hwf ltac:(lia))
    as (h'' & Hok & _ & _ & _ & _ & _ & Hperm & _).
  rewrite Hok in Hdel. injection Hdel as ->.
  pose proof (proj1 (value_at_Some _ _ _) Hx) as [_ Hcellx].
  change (Z.to_nat 0) with 0%nat in Hcellx.
  rewrite Hcellx in Hperm. simpl in Hperm.
  assert (Hsplit : contents h = Some x :: drop 1 (contents h)).
  { unfold contents.
    replace (Z.to_nat (_size h)) with (S (Z.to_nat (_size h - 1))) by lia.
    destruct (cells (_cache h)) as [|c0 cs] eqn:Hcs; [done|].
    simpl in Hcellx. injection Hcellx as ->. simpl. by rewrite drop_0. }
  rewrite Hsplit in Hperm.
  rewrite (Permutation_app_comm (contents h')) in Hperm. simpl in Hperm.
  apply Permutation_cons_inv in Hperm.
  pose proof (proj1 (value_at_Some _ _ _) Hv) as [_ Hcellv].
  assert (Hin : Some v ∈ contents h').
  { apply list_elem_of_lookup. exists (Z.to_nat i). unfold contents.
    rewrite lookup_take_lt by lia. done. }
  rewrite <-Hperm in Hin.
  apply list_elem_of_lookup in Hin as [k Hk].
  rewrite lookup_drop in Hk. unfold contents in Hk.
  apply lookup_take_Some in Hk as [Hk Hklt].
  apply (heap_order_below_children h l r Hord Hl Hr (Z.of_nat (1 + k)) v).
  - lia.
  - apply value_at_Some. split; [lia|]. by rewrite Nat2Z.id.
Qed.

Lemma Delete_promotes_larger_child_witness :
  wf (heap_of [9; 5; 8; 4; 1] 15 14) ∧
  4 ≤ _size (heap_of [9; 5; 8; 4; 1] 15 14) ∧
  value_at (heap_of [9; 5; 8; 4; 1] 15 14) 1 = Some 5 ∧
  value_at (heap_of [9; 5; 8; 4; 1] 15 14) 2 = Some 8 ∧
  ∃ h', Delete (heap_of [9; 5; 8; 4; 1] 15 14) = Ok (tt, h') ∧
        value_at h' 0 = Some (Z.max 5 8) ∧
        (heap_order (heap_of [9; 5; 8; 4; 1] 15 14) →
         ∀ i v, 0 ≤ i < _size h' → value_at h' i = Some v → v ≤ Z.max 5 8).
Proof.
  assert (Hwf : wf (heap_of [9; 5; 8; 4; 1] 15 14))
    by (apply heap_of_wf; [simpl; lia | vm_compute; discriminate]).
  assert (Hfour : 4 ≤ _size (heap_of [9; 5; 8; 4; 1] 15 14)) by (simpl; lia).
  assert (H5 : 0 ≤ 5 < 2 ^ 31) by lia.
  assert (H8 : 0 ≤ 8 < 2 ^ 31) by lia.
  split; [exact Hwf|]. split; [exact Hfour|].
  split; [reflexivity|]. split; [reflexivity|].
  exact (Delete_promotes_larger_child _ 5 8 Hwf Hfour eq_refl eq_refl H5 H8).
Defined.

(** X12.  On a heap of one to three elements [Delete] does no sifting at
    all, because [PercolateDown] acts only on a node with two children
    below [_size]: the former last element becomes the root and the
    element at index 1, if it remains, stays where it is, whatever
    their values. *)
Theorem Delete_small_heap (h : MinHeap)
    (Hwf : wf h) (Hsmall : 1 ≤ _size h ≤ 3) :
  ∃ h', Delete h = Ok (tt, h') ∧
        _size h' = _size h - 1 ∧
        value_at h' 0 = value_at h (_size h - 1) ∧
        (∀ k, 1 ≤ k < _size h - 1 → value_at h' k = value_at h k).
Proof.
  destruct (wf_value_at h 0 Hwf ltac:(lia)) as [x Hx].
  destruct (wf_value_at h (_size h - 1) Hwf ltac:(lia)) as [y Hy].
  assert (Hstop : ∀ h1, _size h1 = _size h →
            PercolateDown (S (Z.to_nat (_size h - 1))) 0 (shrunk h1)
            = Ok (tt, shrunk h1)).
  { intros h1 Hsz. rewrite PercolateDown_unfold.
    unfold bind at 1, get_size at 1.
    change (GetLeftChildNode 0) with 1. change (GetRightChildNode 0) with 2.
    assert ((2 <? _size (shrunk h1)) = false) as ->.
    { apply Z.ltb_ge. simpl. lia. }
    by rewrite andb_false_r. }
  destruct (decide (_size h = 1)) as [Hone|Hmore].
  - destruct (swap_rearranged h 0 0 Hwf ltac:(lia) ltac:(lia))
      as (h1 & Hswap & Hre1 & Hsame & _).
    assert (Hswap' : swap 0 (_size h - 1) h = Ok (tt, h1))
      by (by rewrite Hone).
    pose proof (re_size _ _ Hre1) as Hsz1.
    exists (shrunk h1).
    split; [by rewrite (Delete_as_PercolateDown h h1 Hwf ltac:(lia) Hswap' Hsz1),
                       (Hstop h1 Hsz1)|].
    split; [simpl; lia|]. split; [|intros k Hk; lia].
    rewrite Hone. change (1 - 1) with 0.
    change (value_at (shrunk h1) 0) with (value_at h1 0).
    by apply value_at_same_cell.
  - destruct (swap_values h 0 (_size h - 1) x y Hwf)
      as (h1 & Hswap & _ & Hre1 & Hv10 & _ & Hrest);
      [lia | lia | lia | done | done |].
    pose proof (re_size _ _ Hre1) as Hsz1.
    exists (shrunk h1).
    split; [by rewrite (Delete_as_PercolateDown h h1 Hwf ltac:(lia) Hswap Hsz1),
                       (Hstop h1 Hsz1)|].
    split; [simpl; lia|]. split.
    + change (value_at (shrunk h1) 0) with (value_at h1 0). congruence.
    + intros k Hk. change (value_at (shrunk h1) k) with (value_at h1 k).
      apply Hrest; lia.
Qed.

Lemma Delete_small_heap_witness :
  wf (heap_of [5; 4; 3] 15 14) ∧
  1 ≤ _size (heap_of [5; 4; 3] 15 14) ≤ 3 ∧
  ∃ h', Delete (heap_of [5; 4; 3] 15 14) = Ok (tt, h') ∧
        _size h' = _size (heap_of [5; 4; 3] 15 14) - 1 ∧
        value_at h' 0
        = value_at (heap_of [5; 4; 3] 15 14)
                   (_size (heap_of [5; 4; 3] 15 14) - 1) ∧
        (∀ k, 1 ≤ k < _size (heap_of [5; 4; 3] 15 14) - 1 →
              value_at h' k = value_at (heap_of [5; 4; 3] 15 14) k).
Proof.
  assert (Hwf : wf (heap_of [5; 4; 3] 15 14))
    by (apply heap_of_wf; [simpl; lia | vm_compute; discriminate]).
  assert (Hsmall : 1 ≤ _size (heap_of [5; 4; 3] 15 14) ≤ 3) by (simpl; lia).
  split; [exact Hwf|]. split; [exact Hsmall|].
  exact (Delete_small_heap _ Hwf Hsmall).
Defined.

(** Exchanging the root with one of its children and sifting down from
    that child leaves the child's value at the root. *)
Lemma PercolateDown_root_step (fuel : nat) (h : MinHeap) (c y v : Z) :
  wf h → c = 1 ∨ c = 2 → c < _size h → _size h < Z.of_nat fuel + c →
  value_at h 0 = Some y → value_at h c = Some v →
  ∃ h', (swap 0 c ;; PercolateDown fuel c) h = Ok (tt, h') ∧
        value_at h' 0 = Some v.
Proof.
  intros Hwf Hc Hlt Hfuel Hy Hv.
  destruct (swap_values h 0 c y v Hwf)
    as (h1 & Hswap & Hwf1 & Hre1 & Hv0 & _ & _);
    [lia | lia | lia | done | done |].
  pose proof (re_size _ _ Hre1) as Hsz1.
  destruct (PercolateDown_frame fuel c h1 Hwf1)
    as (h' & Hdown & _ & Hframe); [lia | lia |].
  exists h'. split; [by rewrite (bind_ok _ _ _ _ _ Hswap)|].
  rewrite <-Hv0. apply value_at_same_cell. apply Hframe.
  destruct Hc as [-> | ->]; reflexivity.
Qed.

(** X13.  The test for a missing child is a test for a negative value.
    On a well-formed heap of four or more elements, when either upper
    child is negative [Delete] does not compare them: it puts the left
    child at the root, unless the left child is exactly [-1], in which
    case it puts the right child there. *)
Theorem Delete_negative_child (h : MinHeap) (l r : Z)
    (Hwf : wf h) (Hfour : 4 ≤ _size h)
    (Hl : value_at h 1 = Some l) (Hr : value_at h 2 = Some r)
    (Hneg : l < 0 ∨ r < 0) :
  ∃ h', Delete h = Ok (tt, h') ∧
        value_at h' 0 = Some (if l =? -1 then r else l).
Proof.
  pose proof (wf_cells h Hwf) as Hcells. pose proof (wf_size h Hwf) as Hsize.
  destruct (wf_value_at h 0 Hwf ltac:(lia)) as [x Hx].
  destruct (wf_value_at h (_size h - 1) Hwf ltac:(lia)) as [y Hy].
  destruct (swap_values h 0 (_size h - 1) x y Hwf)
    as (h1 & Hswap & Hwf1 & Hre1 & Hv10 & _ & Hrest1);
    [lia | lia | lia | done | done |].
  pose proof (re_size _ _ Hre1) as Hsz1.
  rewrite (Delete_as_PercolateDown h h1 Hwf ltac:(lia) Hswap Hsz1).
  assert (Hwf2 : wf (shrunk h1)) by (apply shrunk_wf; [done | lia]).
  assert (Hsz2 : _size (shrunk h1) = _size h - 1) by (simpl; lia).
  assert (Hl2 : value_at (shrunk h1) 1 = Some l).
  { change (value_at (shrunk h1) 1) with (value_at h1 1).
    rewrite Hrest1 by lia. done. }
  assert (Hr2 : value_at (shrunk h1) 2 = Some r).
  { change (value_at (shrunk h1) 2) with (value_at h1 2).
    rewrite Hrest1 by lia. done. }
  assert (Hy2 : value_at (shrunk h1) 0 = Some y) by exact Hv10.
  set (h2 := shrunk h1) in *.
  pose proof (proj1 (value_at_Some _ _ _) Hl2) as [_ Hcelll].
  pose proof (proj1 (value_at_Some _ _ _) Hr2) as [_ Hcellr].
  pose proof (read_ok h2 1 l (wf_live h2 Hwf2) ltac:(lia) Hcelll) as Hreadl.
  pose proof (read_ok h2 2 r (wf_live h2 Hwf2) ltac:(lia) Hcellr) as Hreadr.
  rewrite PercolateDown_unfold. unfold bind at 1, get_size at 1.
  change (GetParentNode (size_t_wrap (0 + 2))) with 0.
  change (GetLeftChildNode 0) with 1. change (GetRightChildNode 0) with 2.
  assert ((1 <? _size h2) && (2 <? _size h2) = true) as ->.
  { apply andb_true_iff. split; apply Z.ltb_lt; lia. }
  cbv zeta. rewrite (bind_ok _ _ _ _ _ Hreadl).
  assert (Hone : (if l >? -1 then r0 <- read 2 ;; ret (r0 >? -1)
                  else ret false) h2 = Ok (false, h2)).
  { destruct (l >? -1) eqn:Hlpos; [|done].
    apply Z.gtb_lt in Hlpos.
    rewrite (bind_ok _ _ _ _ _ Hreadr). unfold ret.
    assert ((r >? -1) = false) as ->; [|done].
    apply not_true_is_false. intros Hrpos%Z.gtb_lt. lia. }
  rewrite (bind_ok _ _ _ _ _ Hone).
  destruct (l =? -1) eqn:Hminus; simpl negb; cbv iota.
  - apply (PercolateDown_root_step _ h2 2 y r); try done; [by right | lia..].
  - apply (PercolateDown_root_step _ h2 1 y l); try done; [by left | lia..].
Qed.

Lemma Delete_negative_child_witness :
  wf (heap_of [9; -5; 8; 4; 1] 15 14) ∧
  4 ≤ _size (heap_of [9; -5; 8; 4; 1] 15 14) ∧
  value_at (heap_of [9; -5; 8; 4; 1] 15 14) 1 = Some (-5) ∧
  value_at (heap_of [9; -5; 8; 4; 1] 15 14) 2 = Some 8 ∧
  (-5 < 0 ∨ 8 < 0) ∧
  ∃ h', Delete (heap_of [9; -5; 8; 4; 1] 15 14) = Ok (tt, h') ∧
        value_at h' 0 = Some (if -5 =? -1 then 8 else -5).
Proof.
  assert (Hwf : wf (heap_of [9; -5; 8; 4; 1] 15 14))
    by (apply heap_of_wf; [simpl; lia | vm_compute; discriminate]).
  assert (Hfour : 4 ≤ _size (heap_of [9; -5; 8; 4; 1] 15 14))
    by (simpl; lia).
  assert (Hneg : -5 < 0 ∨ 8 < 0) by (left; lia).
  split; [exact Hwf|]. split; [exact Hfour|].
  split; [reflexivity|]. split; [reflexivity|]. split; [exact Hneg|].
  exact (Delete_negative_child _ (-5) 8 Hwf Hfour eq_refl eq_refl Hneg).
Defined.

(** ** Insert: when heap order survives *)

(** An element larger than every other one is carried by the sift-up
    as far as it goes: to index 1 or 2, never to the root. *)
Lemma PercolateUp_carries_largest (fuel : nat) :
  ∀ (index : Z) (h : MinHeap) (x : Z),
    wf h → 1 ≤ index < _size h → index < 2 ^ Z.of_nat fuel →
    value_at h index = Some x →
    (∀ k v, 0 ≤ k < _size h → k ≠ index → value_at h k = Some v → v < x) →
    ∃ h' j, PercolateUp fuel index h = Ok (tt, h') ∧
            1 ≤ j ≤ 2 ∧ j ≤ index ∧ value_at h' j = Some x.
Proof.
  induction fuel as [|fuel IH]; intros index h x Hwf Hindex Hfuel Hvc Hmax;
    [simpl in Hfuel; lia|].
  pose proof (wf_cells h Hwf) as Hcells. pose proof (wf_size h Hwf) as Hsize.
  assert (Hmc : max_cells = 2 ^ 61) by reflexivity.
  assert (Hmod : size_t_modulus = 2 ^ 64) by reflexivity.
  rewrite pow2_succ in Hfuel.
  rewrite PercolateUp_unfold. cbv zeta.
  rewrite GetParentNode_pos by lia.
  assert (Hparent : 2 * ((index - 1) / 2) ≤ index - 1
                    ≤ 2 * ((index - 1) / 2) + 1)
    by (Z.div_mod_to_equations; lia).
  destruct (0 <? (index - 1) / 2) eqn:Hpos.
  2:{ apply Z.ltb_ge in Hpos. unfold bind at 1, ret at 1.
      exists h, index. split; [done|]. split; [lia|]. split; [lia | done]. }
  apply Z.ltb_lt in Hpos.
  destruct (wf_value_at h ((index - 1) / 2) Hwf ltac:(lia)) as [vp Hvp].
  pose proof (Hmax ((index - 1) / 2) vp ltac:(lia) ltac:(lia) Hvp) as Hlt.
  pose proof (proj1 (value_at_Some _ _ _) Hvp) as [_ Hcellp].
  pose proof (proj1 (value_at_Some _ _ _) Hvc) as [_ Hcellc].
  pose proof (read_ok h ((index - 1) / 2) vp (wf_live h Hwf) ltac:(lia) Hcellp)
    as Hreadp.
  pose proof (read_ok h index x (wf_live h Hwf) ltac:(lia) Hcellc) as Hreadc.
  assert (Hcmp : (p0 <- read ((index - 1) / 2) ;;
                  c0 <- read index ;; ret (p0 <? c0)) h
                 = Ok (true, h)).
  { rewrite (bind_ok _ _ _ _ _ Hreadp), (bind_ok _ _ _ _ _ Hreadc).
    unfold ret. by rewrite (proj2 (Z.ltb_lt vp x) Hlt). }
  rewrite (bind_ok _ _ _ _ _ Hcmp).
  destruct (swap_values h ((index - 1) / 2) index vp x Hwf)
    as (h1 & Hswap & Hwf1 & Hre1 & Hv1p & Hv1c & Hrest);
    [lia | lia | lia | done | done |].
  pose proof (re_size _ _ Hre1) as Hsz1.
  destruct (IH ((index - 1) / 2) h1 x) as (h' & j & Hrec & Hj & Hjle & Hvj).
  { done. }
  { lia. }
  { lia. }
  { done. }
  { intros k v Hk Hkp Hv. rewrite Hsz1 in Hk.
    destruct (decide (k = index)) as [->|Hki].
    - rewrite Hv1c in Hv. injection Hv as <-. done.
    - rewrite Hrest in Hv by done. by apply (Hmax k). }
  exists h', j. split; [by rewrite (bind_ok _ _ _ _ _ Hswap)|].
  split; [done|]. split; [lia | done].
Qed.

(** X14.  When [Insert] keeps the heap in order.  For a well-formed heap
    in heap order with root value [root], the heap a returning
    [Insert x] leaves is in heap order exactly when [x] does not exceed
    [root]: a larger [x] climbs to index 1 or 2 and stays there, below a
    smaller root. *)
Theorem Insert_order_iff (x root : Z) (h h' : MinHeap)
    (Hwf : wf h) (Hord : heap_order h)
    (Hroot : value_at h 0 = Some root)
    (Hins : Insert x h = Ok (tt, h')) :
  heap_order h' ↔ x ≤ root.
Proof.
  pose proof (wf_cells h Hwf) as Hcells. pose proof (wf_size h Hwf) as Hsize.
  assert (Hmc : max_cells = 2 ^ 61) by reflexivity.
  split.
  2:{ intros Hle.
      apply (proj2 (Insert_order x h h' Hwf (heap_order_below_root h Hord) Hins)
               root); done. }
  intros Hord'.
  destruct (decide (x ≤ root)) as [Hle|Hgt]; [done | exfalso].
  pose proof Hins as (Hne & Hroom & Hcap & Hre & Hcell0)%Insert_inv; [|done].
  rewrite Insert_as_PercolateUp in Hins by done.
  destruct (PercolateUp_carries_largest PercolateUp_budget (_size h)
              (appended x h) x)
    as (h'' & j & Hup & Hj & Hjle & Hvj).
  { by apply appended_wf. }
  { simpl. lia. }
  { change (2 ^ Z.of_nat PercolateUp_budget) with (2 ^ 66). lia. }
  { apply appended_value_at_end. lia. }
  { intros k v Hk Hks Hv. simpl in Hk.
    rewrite appended_value_at in Hv by lia.
    pose proof (heap_order_root_max h root Hord Hroot k v ltac:(lia) Hv). lia. }
  rewrite Hup in Hins. injection Hins as ->.
  assert (Hroot' : value_at h' 0 = Some root).
  { rewrite <-Hroot. by apply value_at_same_cell. }
  assert (Hsz' : _size h' = _size h + 1) by (by rewrite (re_size _ _ Hre)).
  pose proof (Hord' j ltac:(lia)) as (p & c & Hp & Hc & Hpc)%ordered_at_true.
  assert (Hpar : (j - 1) / 2 = 0) by (Z.div_mod_to_equations; lia).
  rewrite Hpar, Hroot' in Hp. injection Hp as <-.
  rewrite Hvj in Hc. injection Hc as <-. lia.
Qed.

Lemma Insert_order_iff_witness :
  wf (heap_of [7; 3] 15 14) ∧
  heap_order (heap_of [7; 3] 15 14) ∧
  value_at (heap_of [7; 3] 15 14) 0 = Some 7 ∧
  Insert 9 (heap_of [7; 3] 15 14) = Ok (tt, heap_of [7; 3; 9] 15 14) ∧
  (heap_order (heap_of [7; 3; 9] 15 14) ↔ 9 ≤ 7).
Proof.
  assert (Hwf : wf (heap_of [7; 3] 15 14))
    by (apply heap_of_wf; [simpl; lia | vm_compute; discriminate]).
  assert (Hord : heap_order (heap_of [7; 3] 15 14))
    by (apply heap_order_b_spec; vm_compute; reflexivity).
  assert (Hins : Insert 9 (heap_of [7; 3] 15 14)
                 = Ok (tt, heap_of [7; 3; 9] 15 14))
    by (vm_compute; reflexivity).
  split; [exact Hwf|]. split; [exact Hord|]. split; [reflexivity|].
  split; [exact Hins|].
  exact (Insert_order_iff 9 7 _ _ Hwf Hord eq_refl Hins).
Defined.
